(** * librbd::io::AioCompletion

    A shallow embedding of [src/librbd/io/AioCompletion.cc]: the completion
    object of one logical image request, which counts down the reports of
    its sub-operations, aggregates their results, and runs the finishing
    sequence (finalize, then complete) when the count reaches zero.

    The member functions are written in a small state-and-abort monad over
    the completion object and a trace of the calls made to collaborators
    (perf counters, work queue, event socket, user callback).  The
    concurrent behaviour of [complete_request] is given by a thread pool
    whose threads execute the atomic accesses of the function one at a
    time, under an arbitrary schedule. *)

From Stdlib Require Import ZArith List Lia Bool Permutation.
From stdpp Require Import base list.
Import ListNotations.
Local Open Scope Z_scope.

(** ** Machine integers *)

Module Int.
(** [uint32_t]: the type of [pending_count]. *)
Definition to_uint32 (z : Z) : Z := z mod 2 ^ 32.
(** [int]: the type of [error_rval]; conversion from [ssize_t] keeps the
    low 32 bits. *)
Definition INT_MIN : Z := - 2 ^ 31.
Definition INT_MAX : Z := 2 ^ 31 - 1.
Definition to_int (z : Z) : Z := (z + 2 ^ 31) mod 2 ^ 32 - 2 ^ 31.
(** [ssize_t]: the type of [rval]; atomic addition wraps around. *)
Definition SSIZE_MIN : Z := - 2 ^ 63.
Definition SSIZE_MAX : Z := 2 ^ 63 - 1.
Definition to_ssize (z : Z) : Z := (z + 2 ^ 63) mod 2 ^ 64 - 2 ^ 63.
End Int.

(** [<errno.h>] *)
Definition EIO : Z := 5.
Definition EEXIST : Z := 17.

(** ** Data model *)

Inductive aio_state_t :=
| AIO_STATE_PENDING
| AIO_STATE_CALLBACK
| AIO_STATE_COMPLETE.

(** The tags named by the switch of [complete]; [AIO_TYPE_NONE] stands for
    a tag outside of them (the switch's [default]). *)
Inductive aio_type_t :=
| AIO_TYPE_NONE
| AIO_TYPE_GENERIC
| AIO_TYPE_OPEN
| AIO_TYPE_CLOSE
| AIO_TYPE_READ
| AIO_TYPE_WRITE
| AIO_TYPE_DISCARD
| AIO_TYPE_FLUSH
| AIO_TYPE_WRITESAME
| AIO_TYPE_COMPARE_AND_WRITE.

(** What the completion reads of the image context it points to. *)
Record ImageCtx := {
  ctx_id : nat;
  perfcounter : bool;            (* perfcounter != nullptr *)
  event_socket_is_valid : bool   (* event_socket.is_valid() *)
}.

Record AioCompletion := {
  state : aio_state_t;
  rval : Z;                      (* ssize_t, atomic *)
  error_rval : Z;                (* int, atomic *)
  pending_count : Z;             (* uint32_t, atomic *)
  aio_type : aio_type_t;
  ictx : option ImageCtx;        (* pointer to ImageCtx, None is nullptr *)
  start_time : Z;
  complete_cb : bool;            (* a callback is registered *)
  event_notify : bool;
  async_op_started : bool        (* async_op.started() *)
}.

Definition set_state (s : aio_state_t) (c : AioCompletion) : AioCompletion :=
  {| state := s; rval := rval c; error_rval := error_rval c;
     pending_count := pending_count c; aio_type := aio_type c;
     ictx := ictx c; start_time := start_time c;
     complete_cb := complete_cb c; event_notify := event_notify c;
     async_op_started := async_op_started c |}.

Definition set_rval (r : Z) (c : AioCompletion) : AioCompletion :=
  {| state := state c; rval := r; error_rval := error_rval c;
     pending_count := pending_count c; aio_type := aio_type c;
     ictx := ictx c; start_time := start_time c;
     complete_cb := complete_cb c; event_notify := event_notify c;
     async_op_started := async_op_started c |}.

Definition set_error_rval (e : Z) (c : AioCompletion) : AioCompletion :=
  {| state := state c; rval := rval c; error_rval := e;
     pending_count := pending_count c; aio_type := aio_type c;
     ictx := ictx c; start_time := start_time c;
     complete_cb := complete_cb c; event_notify := event_notify c;
     async_op_started := async_op_started c |}.

Definition set_pending_count (n : Z) (c : AioCompletion) : AioCompletion :=
  {| state := state c; rval := rval c; error_rval := error_rval c;
     pending_count := n; aio_type := aio_type c;
     ictx := ictx c; start_time := start_time c;
     complete_cb := complete_cb c; event_notify := event_notify c;
     async_op_started := async_op_started c |}.

Definition set_ictx (i : option ImageCtx) (c : AioCompletion) : AioCompletion :=
  {| state := state c; rval := rval c; error_rval := error_rval c;
     pending_count := pending_count c; aio_type := aio_type c;
     ictx := i; start_time := start_time c;
     complete_cb := complete_cb c; event_notify := event_notify c;
     async_op_started := async_op_started c |}.

Definition set_binding (i : option ImageCtx) (t : aio_type_t) (now : Z)
    (c : AioCompletion) : AioCompletion :=
  {| state := state c; rval := rval c; error_rval := error_rval c;
     pending_count := pending_count c; aio_type := t;
     ictx := i; start_time := now;
     complete_cb := complete_cb c; event_notify := event_notify c;
     async_op_started := async_op_started c |}.

Definition set_async_op_started (b : bool) (c : AioCompletion) : AioCompletion :=
  {| state := state c; rval := rval c; error_rval := error_rval c;
     pending_count := pending_count c; aio_type := aio_type c;
     ictx := ictx c; start_time := start_time c;
     complete_cb := complete_cb c; event_notify := event_notify c;
     async_op_started := b |}.

(** ** Collaborator calls *)

Inductive perf_counter :=
| l_librbd_rd_latency
| l_librbd_wr_latency
| l_librbd_discard_latency
| l_librbd_flush_latency
| l_librbd_ws_latency
| l_librbd_cmp_latency.

(** The calls the completion makes to the outside, in the order made.  The
    callback event carries the completion as it is at the moment of the
    call: what the callback can observe through its handle. *)
Inductive event :=
| EvAssembleResult                       (* read_result.assemble_result(cct) *)
| EvTinc (ctr : perf_counter) (elapsed : Z)
| EvDeleteCtx (i : ImageCtx)             (* delete ictx *)
| EvCallback (seen : AioCompletion)      (* complete_cb(rbd_comp, complete_arg) *)
| EvCompletedReq (i : ImageCtx)          (* ictx->completed_reqs.push_back *)
| EvSocketNotify (i : ImageCtx)          (* ictx->event_socket.notify() *)
| EvNotifyAll                            (* cond.notify_all() *)
| EvStartOp (i : ImageCtx)               (* async_op.start_op on the context *)
| EvFinishOp                             (* async_op.finish_op() *)
| EvQueueAioRequest (i : ImageCtx)       (* op_work_queue->queue(new C_AioRequest(this), 0) *)
| EvPut.                                 (* put() *)

(** ** The monad: state, trace, and failed assertions *)

Inductive assertion :=
| Assert_ictx_not_null
| Assert_previous_pending_count_zero
| Assert_previous_pending_count_positive
| Assert_pending_count_zero
| Assert_async_op_not_started.

Inductive outcome (A : Type) :=
| Ok (a : A)
| Abort (which : assertion).
Arguments Ok {A} a.
Arguments Abort {A} which.

Record sys := { comp : AioCompletion; trace : list event }.

Definition M (A : Type) : Type := sys -> outcome (A * sys).

Definition ret {A} (a : A) : M A := fun s => Ok (a, s).

Definition bind {A B} (m : M A) (k : A -> M B) : M B :=
  fun s => match m s with
           | Ok (a, s') => k a s'
           | Abort w => Abort w
           end.

Notation "'let*' x := m 'in' k" := (bind m (fun x => k))
  (at level 10, x name, m at level 100, k at level 200).
Notation "m ;; k" := (bind m (fun _ => k))
  (at level 100, k at level 200, right associativity).

Definition this : M AioCompletion := fun s => Ok (comp s, s).

Definition update (f : AioCompletion -> AioCompletion) : M unit :=
  fun s => Ok (tt, {| comp := f (comp s); trace := trace s |}).

Definition emit (e : event) : M unit :=
  fun s => Ok (tt, {| comp := comp s; trace := trace s ++ [e] |}).

Definition ceph_assert (b : bool) (w : assertion) : M unit :=
  fun s => if b then Ok (tt, s) else Abort w.

Definition when (b : bool) (m : M unit) : M unit :=
  if b then m else ret tt.

Definition is_bound (c : AioCompletion) : bool :=
  match ictx c with Some _ => true | None => false end.

(** ** Member functions *)

Definition is_read (t : aio_type_t) : bool :=
  match t with AIO_TYPE_READ => true | _ => false end.

Definition is_open (t : aio_type_t) : bool :=
  match t with AIO_TYPE_OPEN => true | _ => false end.

Definition is_close (t : aio_type_t) : bool :=
  match t with AIO_TYPE_CLOSE => true | _ => false end.

(** [wait_for_complete]: the loop tests [state] under the lock each time
    the waiter runs; [observed] lists the completion as the waiter finds
    it at its successive tests.  [None]: the waiter is still blocked in
    [cond.wait] when the observations end. *)
Fixpoint wait_for_complete (observed : list AioCompletion) : option Z :=
  match observed with
  | [] => None
  | c :: later =>
      match state c with
      | AIO_STATE_COMPLETE => Some 0
      | _ => wait_for_complete later
      end
  end.

Definition finalize : M unit :=
  let* c := this in
  ceph_assert (is_bound c) Assert_ictx_not_null ;;
  let err_r := error_rval c in
  when (err_r <? 0) (update (set_rval err_r)) ;;
  let* c := this in
  let r := rval c in
  when ((0 <=? r) && is_read (aio_type c)) (emit EvAssembleResult).

(** The latency bucket chosen by the switch of [complete]. *)
Definition latency_counter (t : aio_type_t) : option perf_counter :=
  match t with
  | AIO_TYPE_GENERIC | AIO_TYPE_OPEN | AIO_TYPE_CLOSE => None
  | AIO_TYPE_READ => Some l_librbd_rd_latency
  | AIO_TYPE_WRITE => Some l_librbd_wr_latency
  | AIO_TYPE_DISCARD => Some l_librbd_discard_latency
  | AIO_TYPE_FLUSH => Some l_librbd_flush_latency
  | AIO_TYPE_WRITESAME => Some l_librbd_ws_latency
  | AIO_TYPE_COMPARE_AND_WRITE => Some l_librbd_cmp_latency
  | AIO_TYPE_NONE => None
  end.

(** [now] is the value [coarse_mono_clock::now()] returns if it is read.
    [async_op.finish_op()] is recorded as a call; [AsyncOperation] is not
    part of the sources, and what [started()] answers after it is left as
    it was. *)
Definition complete (now : Z) : M unit :=
  let* c := this in
  match ictx c with
  | None => fun _ => Abort Assert_ictx_not_null
  | Some i =>
      let r := rval c in
      when (perfcounter i)
        (let elapsed := now - start_time c in
         match latency_counter (aio_type c) with
         | Some ctr => emit (EvTinc ctr elapsed)
         | None => ret tt
         end) ;;
      when (is_close (aio_type c) || (is_open (aio_type c) && (r <? 0)))
        (* must destroy ImageCtx prior to invoking callback *)
        (emit (EvDeleteCtx i) ;; update (set_ictx None)) ;;
      update (set_state AIO_STATE_CALLBACK) ;;
      (let* c := this in
       when (complete_cb c) (emit (EvCallback c))) ;;
      (let* c := this in
       match ictx c with
       | Some i' =>
           when (event_notify c && event_socket_is_valid i')
             (emit (EvCompletedReq i') ;; emit (EvSocketNotify i'))
       | None => ret tt
       end) ;;
      update (set_state AIO_STATE_COMPLETE) ;;
      emit EvNotifyAll ;;
      (* note: possible for image to be closed after op marked finished *)
      let* c := this in
      when (async_op_started c) (emit EvFinishOp)
  end.

Definition init_time (i : option ImageCtx) (t : aio_type_t) (now : Z) : M unit :=
  let* c := this in
  match ictx c with
  | None => update (set_binding i t now)
  | Some _ => ret tt
  end.

Definition start_op : M unit :=
  let* c := this in
  match ictx c with
  | None => fun _ => Abort Assert_ictx_not_null
  | Some i =>
      if is_open (aio_type c) || is_close (aio_type c) then
        (* no need to track async open/close operations *)
        ret tt
      else
        ceph_assert (negb (async_op_started c)) Assert_async_op_not_started ;;
        emit (EvStartOp i) ;;
        update (set_async_op_started true)
  end.

(** [put] is defined in the header, which is not part of the sources: the
    release of one reference is recorded as a call. *)
Definition put : M unit := emit EvPut.

Definition fail (r : Z) (now : Z) : M unit :=
  let* c := this in
  ceph_assert (is_bound c) Assert_ictx_not_null ;;
  ceph_assert (pending_count c =? 0) Assert_pending_count_zero ;;
  update (set_rval r) ;;
  complete now ;;
  put.

Definition set_request_count (count : Z) : M unit :=
  let* c := this in
  match ictx c with
  | None => fun _ => Abort Assert_ictx_not_null
  | Some i =>
      let previous_pending_count := pending_count c in
      update (set_pending_count (if count =? 0 then 1 else count)) ;;
      ceph_assert (previous_pending_count =? 0)
        Assert_previous_pending_count_zero ;;
      (* ensure completion fires in clean lock context *)
      when (count =? 0) (emit (EvQueueAioRequest i))
  end.

(** [pending_count--]: the atomic post-decrement, returning the value
    before it. *)
Definition fetch_sub_pending_count : M Z :=
  let* c := this in
  let previous := pending_count c in
  update (set_pending_count (Int.to_uint32 (previous - 1))) ;;
  ret previous.

(** [error_rval.compare_exchange_strong(zero, r)] with [zero == 0]: the
    slot takes [r], converted to [int], if it holds zero. *)
Definition compare_exchange_error_rval (r : Z) (c : AioCompletion) : AioCompletion :=
  if error_rval c =? 0 then set_error_rval (Int.to_int r) c else c.

(** The aggregation of one report: an atomic addition to [rval], or the
    compare-and-exchange of [error_rval]. *)
Definition aggregated (r : Z) (c : AioCompletion) : AioCompletion :=
  if r >? 0 then
    set_rval (Int.to_ssize (rval c + r)) c
  else if negb (r =? - EEXIST) then
    (* might race w/ another thread setting an error code but
       first one wins *)
    compare_exchange_error_rval r c
  else c.

Definition aggregate (r : Z) : M unit := update (aggregated r).

Definition complete_request (r : Z) (now : Z) : M unit :=
  let* previous_pending_count := fetch_sub_pending_count in
  ceph_assert (previous_pending_count >? 0)
    Assert_previous_pending_count_positive ;;
  let pending_count := Int.to_uint32 (previous_pending_count - 1) in
  let* c := this in
  ceph_assert (is_bound c) Assert_ictx_not_null ;;
  aggregate r ;;
  when (pending_count =? 0) (finalize ;; complete now) ;;
  put.

Definition is_complete (c : AioCompletion) : bool :=
  match state c with
  | AIO_STATE_PENDING => false
  | _ => true
  end.

Definition get_return_value (c : AioCompletion) : Z := rval c.

(** ** Drivers *)

(** Modelled from the spec: the constructor is defined in the header, which
    is not part of the sources.  A completion starts
    in state Pending, with a zero count, zero results and no context. *)
Definition new_completion (cb : bool) : AioCompletion :=
  {| state := AIO_STATE_PENDING; rval := 0; error_rval := 0;
     pending_count := 0; aio_type := AIO_TYPE_NONE; ictx := None;
     start_time := 0; complete_cb := cb; event_notify := false;
     async_op_started := false |}.

Definition start (c : AioCompletion) : sys := {| comp := c; trace := [] |}.

(** The reports of the sub-operations delivered one after the other, each
    call returning before the next one starts. *)
Fixpoint deliver (reports : list Z) (now : Z) : M unit :=
  match reports with
  | [] => ret tt
  | r :: later => complete_request r now ;; deliver later now
  end.

(** The state a call leaves, when it returns. *)
Definition result_of {A} (o : outcome (A * sys)) : option AioCompletion :=
  match o with
  | Ok (_, s) => Some (comp s)
  | Abort _ => None
  end.

Definition an_image : ImageCtx :=
  {| ctx_id := 1; perfcounter := true; event_socket_is_valid := true |}.

(** A request of kind [t] on [an_image] with [n] sub-operations declared. *)
Definition issue (t : aio_type_t) (n : Z) : M unit :=
  init_time (Some an_image) t 100 ;; set_request_count n.

(** The completion [issue t n] leaves, for [n] not zero. *)
Definition issued (t : aio_type_t) (n : Z) : AioCompletion :=
  set_pending_count n (set_binding (Some an_image) t 100 (new_completion true)).

(** ** Reading results and traces *)

(** The completions seen by the user callback, one per invocation. *)
Fixpoint callbacks (tr : list event) : list AioCompletion :=
  match tr with
  | [] => []
  | EvCallback seen :: later => seen :: callbacks later
  | _ :: later => callbacks later
  end.

(** In the words of the specification: an error report is a negative
    report other than the benign duplicate. *)
Definition is_error (r : Z) : bool := (r <? 0) && negb (r =? - EEXIST).

(** In the words of the specification: the first error among the reports,
    in the order of delivery. *)
Definition first_error (reports : list Z) : option Z := find is_error reports.

(** In the words of the specification: the sum of the strictly positive
    reports. *)
Fixpoint byte_count (reports : list Z) : Z :=
  match reports with
  | [] => 0
  | r :: later => (if r >? 0 then r else 0) + byte_count later
  end.

(** ** Concurrent calls of [complete_request]

    A thread calling [complete_request(r)] performs the accesses to the
    shared completion one at a time.  Its program points are the atomic
    accesses of the function, in program order; the local assertion on
    the value read by the decrement belongs to the decrement's step.
    [finalize] and [complete] are run as one step each. *)

Inductive program_point :=
| AtDecrement      (* previous_pending_count = pending_count-- *)
| AtAssertCtx      (* ceph_assert(ictx != nullptr) *)
| AtAggregate      (* rval += r, or the compare-exchange *)
| AtFinalize       (* finalize() *)
| AtComplete       (* complete() *)
| AtPut            (* put() *)
| Returned.

Record thread := {
  report : Z;                       (* the argument r *)
  at_point : program_point;
  previous_pending_count : Z        (* the local of that name *)
}.

Definition call (r : Z) : thread :=
  {| report := r; at_point := AtDecrement; previous_pending_count := 0 |}.

Definition goto (pt : program_point) (t : thread) : thread :=
  {| report := report t; at_point := pt;
     previous_pending_count := previous_pending_count t |}.

Definition thread_step (now : Z) (t : thread) : M thread :=
  match at_point t with
  | AtDecrement =>
      let* previous := fetch_sub_pending_count in
      ceph_assert (previous >? 0) Assert_previous_pending_count_positive ;;
      ret {| report := report t; at_point := AtAssertCtx;
             previous_pending_count := previous |}
  | AtAssertCtx =>
      let* c := this in
      ceph_assert (is_bound c) Assert_ictx_not_null ;;
      ret (goto AtAggregate t)
  | AtAggregate =>
      aggregate (report t) ;;
      let pending_count := Int.to_uint32 (previous_pending_count t - 1) in
      ret (goto (if pending_count =? 0 then AtFinalize else AtPut) t)
  | AtFinalize => finalize ;; ret (goto AtComplete t)
  | AtComplete => complete now ;; ret (goto AtPut t)
  | AtPut => put ;; ret (goto Returned t)
  | Returned => ret t
  end.

Fixpoint thread_steps (now : Z) (n : nat) (t : thread) : M thread :=
  match n with
  | O => ret t
  | S n' => let* t' := thread_step now t in thread_steps now n' t'
  end.

Record pool := { shared : sys; threads : list thread }.

(** One step of thread number [i]; a number outside the pool does nothing. *)
Definition pool_step (now : Z) (i : nat) (p : pool) : outcome pool :=
  match threads p !! i with
  | None => Ok p
  | Some t =>
      match thread_step now t (shared p) with
      | Ok (t', s') => Ok {| shared := s'; threads := <[i := t']> (threads p) |}
      | Abort w => Abort w
      end
  end.

(** A schedule names the thread that takes each successive step. *)
Fixpoint run (now : Z) (schedule : list nat) (p : pool) : outcome pool :=
  match schedule with
  | [] => Ok p
  | i :: later =>
      match pool_step now i p with
      | Ok p' => run now later p'
      | Abort w => Abort w
      end
  end.

(** One thread per report, all about to call, on the shared completion. *)
Definition spawn (s : sys) (reports : list Z) : pool :=
  {| shared := s; threads := map call reports |}.

Definition has_returned (t : thread) : bool :=
  match at_point t with Returned => true | _ => false end.

(** The thread has executed the decrement and saw the count go to zero. *)
Definition saw_zero (t : thread) : bool :=
  match at_point t with
  | AtDecrement => false
  | _ => previous_pending_count t =? 1
  end.

(** How many elements of [l] satisfy [f]. *)
Fixpoint tally {A} (f : A -> bool) (l : list A) : Z :=
  match l with
  | [] => 0
  | x :: l' => (if f x then 1 else 0) + tally f l'
  end.

(** The completion [finalize] leaves. *)
Definition finalized (c : AioCompletion) : AioCompletion :=
  if error_rval c <? 0 then set_rval (error_rval c) c else c.

(** [complete] destroys the context of the request. *)
Definition tears_down (c : AioCompletion) : bool :=
  is_close (aio_type c) || (is_open (aio_type c) && (rval c <? 0)).

(** The completion as it is while the callback runs, and the completion
    [complete] leaves. *)
Definition in_callback (c : AioCompletion) : AioCompletion :=
  set_state AIO_STATE_CALLBACK (if tears_down c then set_ictx None c else c).

Definition completed (c : AioCompletion) : AioCompletion :=
  set_state AIO_STATE_COMPLETE (in_callback c).

(** The calls [complete] makes, step by step. *)
Definition latency_events (now : Z) (c : AioCompletion) (i : ImageCtx) : list event :=
  if perfcounter i then
    match latency_counter (aio_type c) with
    | Some ctr => [EvTinc ctr (now - start_time c)]
    | None => []
    end
  else [].

Definition teardown_events (c : AioCompletion) (i : ImageCtx) : list event :=
  if tears_down c then [EvDeleteCtx i] else [].

Definition callback_events (c : AioCompletion) : list event :=
  if complete_cb c then [EvCallback (in_callback c)] else [].

Definition notify_events (c : AioCompletion) : list event :=
  match ictx (in_callback c) with
  | Some i' =>
      if event_notify c && event_socket_is_valid i'
      then [EvCompletedReq i'; EvSocketNotify i'] else []
  | None => []
  end.

Definition settle_events (c : AioCompletion) : list event :=
  EvNotifyAll :: (if async_op_started c then [EvFinishOp] else []).

Definition complete_events (now : Z) (c : AioCompletion) (i : ImageCtx) : list event :=
  latency_events now c i ++ teardown_events c i ++ callback_events c ++
  notify_events c ++ settle_events c.

Definition finalize_events (c : AioCompletion) : list event :=
  if (0 <=? rval (finalized c)) && is_read (aio_type c)
  then [EvAssembleResult] else [].

(** The completion after the decrement and the aggregation of a report,
    and whether the decrement brought the count to zero. *)
Definition reported (r : Z) (c : AioCompletion) : AioCompletion :=
  aggregated r (set_pending_count (Int.to_uint32 (pending_count c - 1)) c).

Definition is_last (c : AioCompletion) : bool :=
  Int.to_uint32 (pending_count c - 1) =? 0.

(** The reports aggregated in order. *)
Definition aggregated_all (reports : list Z) (c : AioCompletion) : AioCompletion :=
  fold_left (fun c r => aggregated r c) reports c.

(** Two completions hold the same results. *)
Definition same_results (c1 c2 : AioCompletion) : Prop :=
  rval c1 = rval c2 /\ error_rval c1 = error_rval c2.

(** ** The invariant of the thread pool *)

Definition at_decrement (t : thread) : bool :=
  match at_point t with AtDecrement => true | _ => false end.

(** The thread is inside the finishing sequence. *)
Definition finishing (t : thread) : bool :=
  match at_point t with AtFinalize | AtComplete => true | _ => false end.

(** The thread has run [complete]. *)
Definition ran_complete (t : thread) : bool :=
  match at_point t with
  | AtPut | Returned => previous_pending_count t =? 1
  | _ => false
  end.

(** What holds of a pool in every state reached from [spawn] of at least
    one thread on a completion whose count is the number of threads;
    [cb] and [before] are the callback registration and the number of
    callback invocations at the start. *)
Record pool_invariant (cb : bool) (before : Z) (p : pool) : Prop := {
  inv_size : Z.of_nat (length (threads p)) < 2 ^ 32;
  inv_pending :
    pending_count (comp (shared p)) = tally at_decrement (threads p);
  inv_zero :
    tally saw_zero (threads p) =
    (if pending_count (comp (shared p)) =? 0 then 1 else 0);
  inv_local :
    Forall (fun t => at_decrement t = false ->
                     0 < previous_pending_count t < 2 ^ 32) (threads p);
  inv_finishing :
    Forall (fun t => finishing t = true -> previous_pending_count t = 1)
      (threads p);
  inv_cb : complete_cb (comp (shared p)) = cb;
  inv_callbacks :
    Z.of_nat (length (callbacks (trace (shared p)))) =
    before + (if cb then tally ran_complete (threads p) else 0)
}.

(** ** Reading more of the trace *)

(** The latencies recorded, in order. *)
Fixpoint tincs (tr : list event) : list (perf_counter * Z) :=
  match tr with
  | [] => []
  | EvTinc ctr elapsed :: later => (ctr, elapsed) :: tincs later
  | _ :: later => tincs later
  end.

Definition is_put (e : event) : bool :=
  match e with EvPut => true | _ => false end.

Definition is_assemble (e : event) : bool :=
  match e with EvAssembleResult => true | _ => false end.

Definition is_socket_event (e : event) : bool :=
  match e with EvCompletedReq _ | EvSocketNotify _ => true | _ => false end.

Definition is_start_op (e : event) : bool :=
  match e with EvStartOp _ => true | _ => false end.

Definition is_finish_op (e : event) : bool :=
  match e with EvFinishOp => true | _ => false end.

Definition is_delete (e : event) : bool :=
  match e with EvDeleteCtx _ => true | _ => false end.

(** The reports counted and aggregated in order. *)
Definition reported_all (reports : list Z) (c : AioCompletion) : AioCompletion :=
  fold_left (fun c r => reported r c) reports c.

(** Two completions differ at most in the count and the results. *)
Definition same_request (c1 c2 : AioCompletion) : Prop :=
  state c1 = state c2 /\ aio_type c1 = aio_type c2 /\ ictx c1 = ictx c2 /\
  start_time c1 = start_time c2 /\ complete_cb c1 = complete_cb c2 /\
  event_notify c1 = event_notify c2 /\
  async_op_started c1 = async_op_started c2.

(** The sum of [f] over [l]. *)
Fixpoint total {A} (f : A -> Z) (l : list A) : Z :=
  match l with
  | [] => 0
  | x :: l' => f x + total f l'
  end.

(** What a thread has added to [rval] so far. *)
Definition contribution (t : thread) : Z :=
  match at_point t with
  | AtDecrement | AtAssertCtx | AtAggregate => 0
  | _ => if report t >? 0 then report t else 0
  end.

(** What holds of the results in every state of a pool whose threads
    report no error, started on a completion with result [r0] and an
    empty first-error slot. *)
Record results_invariant (r0 : Z) (rs : list Z) (p : pool) : Prop := {
  res_reports : map report (threads p) = rs;
  res_error : error_rval (comp (shared p)) = 0;
  res_rval :
    rval (comp (shared p)) =
    Int.to_ssize (r0 + total contribution (threads p))
}.

(** No thread has run [complete] yet, or the state is Complete. *)
Definition complete_once_run (p : pool) : Prop :=
  tally ran_complete (threads p) = 0 \/
  state (comp (shared p)) = AIO_STATE_COMPLETE.

(** The first-error slot is empty, or holds the report of a thread,
    converted to int. *)
Definition error_from_report (p : pool) : Prop :=
  error_rval (comp (shared p)) = 0 \/
  exists r, In r (map report (threads p)) /\ r <= 0 /\ r <> - EEXIST /\
            error_rval (comp (shared p)) = Int.to_int r.

(** * Properties *)

Arguments finalize : simpl never.
Arguments complete : simpl never.
Arguments complete_request : simpl never.

(** ** Conversions within range *)

Module IntFacts.
Import Int.

Lemma to_int_id z : INT_MIN <= z <= INT_MAX -> to_int z = z.
Proof.
  unfold to_int, INT_MIN, INT_MAX. intros H.
  rewrite Z.mod_small by lia. lia.
Qed.

Lemma to_ssize_id z : SSIZE_MIN <= z <= SSIZE_MAX -> to_ssize z = z.
Proof.
  unfold to_ssize, SSIZE_MIN, SSIZE_MAX. intros H.
  rewrite Z.mod_small by lia. lia.
Qed.

Lemma to_uint32_id z : 0 <= z < 2 ^ 32 -> to_uint32 z = z.
Proof. unfold to_uint32. intros H. now rewrite Z.mod_small. Qed.
End IntFacts.

Ltac unfold_monad :=
  unfold bind, this, update, emit, when, ceph_assert, ret in *; cbn in *.

Lemma callbacks_app (a b : list event) :
  callbacks (a ++ b) = callbacks a ++ callbacks b.
Proof.
  induction a as [|e a IH]; [reflexivity|].
  destruct e; cbn; rewrite IH; reflexivity.
Qed.

(** ** What the finishing sequence does *)

Lemma finalize_spec (c : AioCompletion) (tr : list event) :
  is_bound c = true ->
  finalize {| comp := c; trace := tr |} =
  Ok (tt, {| comp := finalized c; trace := tr ++ finalize_events c |}).
Proof.
  intros Hb. unfold finalize, finalize_events, finalized. unfold_monad.
  rewrite Hb.
  destruct (error_rval c <? 0); cbn;
    destruct (_ && _); cbn; rewrite ?app_nil_r; reflexivity.
Qed.

Lemma complete_spec (now : Z) (c : AioCompletion) (tr : list event) (i : ImageCtx) :
  ictx c = Some i ->
  complete now {| comp := c; trace := tr |} =
  Ok (tt, {| comp := completed c; trace := tr ++ complete_events now c i |}).
Proof.
  intros Hi.
  unfold complete, complete_events, latency_events, teardown_events,
    callback_events, notify_events, settle_events, completed, in_callback,
    tears_down.
  destruct c as [st rv er pc ty ic stt cb en ao]. cbn in Hi. subst ic.
  unfold_monad.
  destruct (perfcounter i); cbn;
    [destruct (latency_counter ty); cbn|];
    (destruct (is_close ty || is_open ty && (rv <? 0)); cbn;
     destruct cb; cbn;
     [destruct en; cbn; destruct (event_socket_is_valid i); cbn;
      destruct ao; cbn; rewrite <- ?app_assoc; cbn;
      rewrite ?app_nil_r; reflexivity ..]).
Qed.

Lemma complete_unbound (now : Z) (s : sys) :
  ictx (comp s) = None -> complete now s = Abort Assert_ictx_not_null.
Proof. intros H. unfold complete. unfold_monad. rewrite H. reflexivity. Qed.

(** ** The queries *)

(** C8: [is_complete] answers true exactly when the state is not Pending,
    so already in state Callback; and the callback itself runs in state
    Callback, where [is_complete] is true and the state is not yet
    Complete. *)
Theorem is_complete_iff_not_pending :
  (forall c, is_complete c = true <-> state c <> AIO_STATE_PENDING) /\
  (forall c, state c = AIO_STATE_CALLBACK -> is_complete c = true) /\
  (forall now c s' seen,
      complete now (start c) = Ok (tt, s') ->
      In (EvCallback seen) (trace s') ->
      state seen = AIO_STATE_CALLBACK /\ is_complete seen = true).
Proof.
  split; [|split].
  - intros c. unfold is_complete. destruct (state c); split; congruence.
  - intros c H. unfold is_complete. rewrite H. reflexivity.
  - intros now c s' seen Hrun Hin.
    destruct (ictx c) as [i|] eqn:Hi;
      [|rewrite complete_unbound in Hrun by exact Hi; discriminate].
    unfold start in Hrun. rewrite (complete_spec now c [] i Hi) in Hrun.
    injection Hrun as <-. cbn [trace app] in Hin.
    assert (Hseen : state seen = AIO_STATE_CALLBACK).
    { unfold complete_events, latency_events, teardown_events,
        callback_events, notify_events, settle_events in Hin.
      rewrite !in_app_iff in Hin.
      destruct Hin as [H|[H|[H|[H|H]]]].
      - destruct (perfcounter i); [|destruct H].
        destruct (latency_counter _); cbn in H; intuition discriminate.
      - destruct (tears_down c); cbn in H; intuition discriminate.
      - destruct (complete_cb c); cbn in H; [|destruct H].
        destruct H as [H|[]]. injection H as <-. reflexivity.
      - destruct (ictx (in_callback c)); [|destruct H].
        destruct (_ && _); cbn in H; intuition discriminate.
      - destruct (async_op_started c); cbn in H; intuition discriminate. }
    split; [exact Hseen|]. unfold is_complete. rewrite Hseen. reflexivity.
Qed.

Lemma is_complete_iff_not_pending_witness :
  is_complete (set_state AIO_STATE_CALLBACK (new_completion true)) = true.
Proof.
  apply (proj1 (proj2 is_complete_iff_not_pending)). reflexivity.
Defined.

Lemma wait_for_complete_zero (observed : list AioCompletion) (v : Z) :
  wait_for_complete observed = Some v -> v = 0.
Proof.
  induction observed as [|c later IH]; cbn; [discriminate|].
  destruct (state c); auto. congruence.
Qed.

Lemma wait_for_complete_blocked (observed : list AioCompletion) :
  wait_for_complete observed = None <->
  Forall (fun c => state c <> AIO_STATE_COMPLETE) observed.
Proof.
  induction observed as [|c later IH]; cbn.
  - split; [constructor|reflexivity].
  - destruct (state c) eqn:Hs.
    + rewrite IH. split; intros H.
      * constructor; [congruence|exact H].
      * inversion H; assumption.
    + rewrite IH. split; intros H.
      * constructor; [congruence|exact H].
      * inversion H; assumption.
    + split; [discriminate|]. intros H. inversion H. congruence.
Qed.

(** C7: [wait_for_complete] stays blocked as long as the state it observes
    is not Complete, and once it observes Complete it returns 0, whatever
    the result of the request: a request that failed with -EIO is waited
    for with return value 0. *)
Theorem wait_for_complete_returns_zero :
  (forall observed v, wait_for_complete observed = Some v -> v = 0) /\
  (forall observed,
      wait_for_complete observed = None <->
      Forall (fun c => state c <> AIO_STATE_COMPLETE) observed) /\
  (forall blocked c later,
      Forall (fun c' => state c' <> AIO_STATE_COMPLETE) blocked ->
      state c = AIO_STATE_COMPLETE ->
      wait_for_complete (blocked ++ c :: later) = Some 0) /\
  (exists c,
      result_of ((issue AIO_TYPE_WRITE 1 ;; deliver [- EIO] 130)
                   (start (new_completion true))) = Some c /\
      get_return_value c = - EIO /\
      wait_for_complete [new_completion true; c] = Some 0).
Proof.
  split; [exact wait_for_complete_zero|].
  split; [exact wait_for_complete_blocked|].
  split.
  - intros blocked c later Hb Hc.
    induction Hb as [|c' blocked Hc' Hb IH]; cbn.
    + rewrite Hc. reflexivity.
    + destruct (state c'); [exact IH|exact IH|congruence].
  - eexists. split; [vm_compute; reflexivity|]. split; reflexivity.
Qed.

Lemma wait_for_complete_returns_zero_witness :
  wait_for_complete
    ([new_completion true] ++
     set_rval (- EIO) (set_state AIO_STATE_COMPLETE (new_completion true)) :: [])
  = Some 0.
Proof.
  apply (proj1 (proj2 (proj2 wait_for_complete_returns_zero))).
  - repeat constructor. discriminate.
  - reflexivity.
Defined.

(** ** Binding *)

Lemma init_time_bound (s : sys) (i : option ImageCtx) (t : aio_type_t) (now : Z) :
  is_bound (comp s) = true -> init_time i t now s = Ok (tt, s).
Proof.
  unfold init_time, is_bound. unfold_monad.
  destruct (ictx (comp s)); [reflexivity|discriminate].
Qed.

Lemma init_time_unbound (s : sys) (i : option ImageCtx) (t : aio_type_t) (now : Z) :
  ictx (comp s) = None ->
  init_time i t now s =
  Ok (tt, {| comp := set_binding i t now (comp s); trace := trace s |}).
Proof.
  intros H. unfold init_time. unfold_monad. rewrite H. reflexivity.
Qed.

(** C9, as the code has it: [init_time] does nothing on a completion whose
    context pointer is not null, whatever its arguments; on a completion
    whose context pointer is null it sets the context, the kind and the
    start time; so after a call that bound a context (not null), the next
    call is a no-op. *)
Theorem init_time_binds_only_unbound :
  (forall s i t now,
      is_bound (comp s) = true -> init_time i t now s = Ok (tt, s)) /\
  (forall s i t now,
      ictx (comp s) = None ->
      exists s', init_time i t now s = Ok (tt, s') /\
                 ictx (comp s') = i /\ aio_type (comp s') = t /\
                 start_time (comp s') = now) /\
  (forall s i t now i' t' now',
      (init_time (Some i) t now ;; init_time i' t' now') s =
      init_time (Some i) t now s).
Proof.
  split; [exact init_time_bound|]. split.
  - intros s i t now H. eexists. split; [apply init_time_unbound, H|].
    cbn. auto.
  - intros s i t now i' t' now'.
    destruct (ictx (comp s)) as [j|] eqn:Hj.
    + assert (Hb : is_bound (comp s) = true) by (unfold is_bound; now rewrite Hj).
      unfold bind. rewrite (init_time_bound s (Some i) t now Hb).
      apply init_time_bound, Hb.
    + unfold bind. rewrite (init_time_unbound s (Some i) t now Hj).
      apply init_time_bound. reflexivity.
Qed.

Lemma init_time_binds_only_unbound_witness :
  init_time None AIO_TYPE_WRITE 9
    {| comp := set_binding (Some an_image) AIO_TYPE_READ 5 (new_completion true);
       trace := [] |} =
  Ok (tt, {| comp := set_binding (Some an_image) AIO_TYPE_READ 5 (new_completion true);
             trace := [] |}).
Proof.
  apply (proj1 init_time_binds_only_unbound). reflexivity.
Defined.

(** C9 as stated fails: a second call is not a no-op when the first call
    passed a null context, nor when the context was torn down by the
    completion of a close request in between. *)
Lemma init_time_second_call_rebinds :
  (exists c1 c2,
      result_of (init_time None AIO_TYPE_READ 1 (start (new_completion true)))
        = Some c1 /\
      result_of ((init_time None AIO_TYPE_READ 1 ;;
                  init_time (Some an_image) AIO_TYPE_WRITE 2)
                   (start (new_completion true))) = Some c2 /\
      (ictx c1, aio_type c1, start_time c1) = (None, AIO_TYPE_READ, 1) /\
      (ictx c2, aio_type c2, start_time c2) = (Some an_image, AIO_TYPE_WRITE, 2)) /\
  (exists c1 c2,
      result_of ((issue AIO_TYPE_CLOSE 1 ;; deliver [0] 130)
                   (start (new_completion true))) = Some c1 /\
      result_of ((issue AIO_TYPE_CLOSE 1 ;; deliver [0] 130 ;;
                  init_time (Some an_image) AIO_TYPE_READ 200)
                   (start (new_completion true))) = Some c2 /\
      (aio_type c1, start_time c1) = (AIO_TYPE_CLOSE, 100) /\
      (aio_type c2, start_time c2) = (AIO_TYPE_READ, 200)).
Proof.
  split; eexists; eexists; (split; [vm_compute; reflexivity|]);
    (split; [vm_compute; reflexivity|]); split; reflexivity.
Qed.

(** ** Declaring the count *)

Lemma issue_issued (t : aio_type_t) (n : Z) :
  n <> 0 ->
  issue t n (start (new_completion true)) =
  Ok (tt, {| comp := issued t n; trace := [] |}).
Proof.
  intros Hn. unfold issue, init_time, set_request_count, issued, start.
  unfold_monad. destruct (Z.eqb_spec n 0); [contradiction|]. reflexivity.
Qed.

(** C6: a call of [set_request_count n] on a bound completion whose count
    is zero returns; afterwards the count is 1 if [n] is zero and [n]
    otherwise, and exactly one [C_AioRequest] has been queued on the work
    queue of the context if [n] is zero and nothing otherwise.  It makes
    no other call and changes no other field: the state, the result, the
    callback invocations are as before, so the finishing sequence does not
    run inside it.  Any other call fails an assertion. *)
Theorem set_request_count_policy (s : sys) (n : Z) :
  (forall i,
      ictx (comp s) = Some i -> pending_count (comp s) = 0 ->
      exists s',
        set_request_count n s = Ok (tt, s') /\
        pending_count (comp s') = (if n =? 0 then 1 else n) /\
        pending_count (comp s') <> 0 /\
        trace s' =
          trace s ++ (if n =? 0 then [EvQueueAioRequest i] else []) /\
        callbacks (trace s') = callbacks (trace s) /\
        state (comp s') = state (comp s) /\
        rval (comp s') = rval (comp s) /\
        error_rval (comp s') = error_rval (comp s) /\
        ictx (comp s') = Some i /\
        aio_type (comp s') = aio_type (comp s) /\
        start_time (comp s') = start_time (comp s) /\
        complete_cb (comp s') = complete_cb (comp s) /\
        event_notify (comp s') = event_notify (comp s) /\
        async_op_started (comp s') = async_op_started (comp s)) /\
  (ictx (comp s) = None ->
      set_request_count n s = Abort Assert_ictx_not_null) /\
  (is_bound (comp s) = true -> pending_count (comp s) <> 0 ->
      set_request_count n s = Abort Assert_previous_pending_count_zero).
Proof.
  split; [|split].
  - intros i Hi Hp.
    assert (Hrun : exists s',
               set_request_count n s = Ok (tt, s') /\
               comp s' = set_pending_count (if n =? 0 then 1 else n) (comp s) /\
               trace s' =
                 trace s ++ (if n =? 0 then [EvQueueAioRequest i] else [])).
    { unfold set_request_count. unfold_monad. rewrite Hi, Hp. cbn.
      destruct (n =? 0); cbn; eexists; (split; [reflexivity|]); cbn;
        rewrite ?app_nil_r; auto. }
    destruct Hrun as (s' & Hrun & Hcomp & Htrace).
    exists s'. split; [exact Hrun|].
    assert (Hcount : pending_count (comp s') = (if n =? 0 then 1 else n))
      by (rewrite Hcomp; reflexivity).
    split; [exact Hcount|].
    split; [rewrite Hcount; destruct (Z.eqb_spec n 0); lia|].
    split; [exact Htrace|].
    split.
    { rewrite Htrace, callbacks_app.
      destruct (n =? 0); cbn; apply app_nil_r. }
    rewrite Hcomp. cbn. repeat split; auto.
  - intros Hi. unfold set_request_count. unfold_monad. rewrite Hi. reflexivity.
  - intros Hb Hp. unfold set_request_count, is_bound in *. unfold_monad.
    destruct (ictx (comp s)); [|discriminate].
    destruct (Z.eqb_spec (pending_count (comp s)) 0); [contradiction|].
    reflexivity.
Qed.

Lemma set_request_count_policy_witness :
  exists s',
    set_request_count 0
      {| comp := set_binding (Some an_image) AIO_TYPE_READ 5
                   (new_completion true);
         trace := [] |} = Ok (tt, s') /\
    pending_count (comp s') = 1 /\
    pending_count (comp s') <> 0 /\
    trace s' = [EvQueueAioRequest an_image] /\
    callbacks (trace s') = [] /\
    state (comp s') = AIO_STATE_PENDING /\
    rval (comp s') = 0 /\
    error_rval (comp s') = 0 /\
    ictx (comp s') = Some an_image /\
    aio_type (comp s') = AIO_TYPE_READ /\
    start_time (comp s') = 5 /\
    complete_cb (comp s') = true /\
    event_notify (comp s') = false /\
    async_op_started (comp s') = false.
Proof.
  apply (proj1 (set_request_count_policy
                  {| comp := set_binding (Some an_image) AIO_TYPE_READ 5
                               (new_completion true);
                     trace := [] |} 0) an_image); reflexivity.
Defined.

(** ** Tearing down the context *)

(** C4: when the kind is close, or open with a negative result at entry,
    [complete] deletes the context and nulls the pointer as its first
    call, before the callback: the callback, if one is registered, comes
    later in the trace and sees a completion without context. *)
Theorem complete_destroys_context_before_callback
    (now : Z) (c : AioCompletion) (tr : list event) (i : ImageCtx) :
  ictx c = Some i ->
  aio_type c = AIO_TYPE_CLOSE \/ (aio_type c = AIO_TYPE_OPEN /\ rval c < 0) ->
  exists s' after,
    complete now {| comp := c; trace := tr |} = Ok (tt, s') /\
    ictx (comp s') = None /\
    trace s' = tr ++ EvDeleteCtx i :: after /\
    callbacks after = (if complete_cb c then [in_callback c] else []) /\
    Forall (fun seen => ictx seen = None) (callbacks after).
Proof.
  intros Hi Hkind.
  assert (Htd : tears_down c = true).
  { unfold tears_down. destruct Hkind as [H|[H Hr]]; rewrite H; cbn;
      [reflexivity|]. apply Z.ltb_lt, Hr. }
  assert (Hlat : latency_events now c i = []).
  { unfold latency_events. destruct (perfcounter i); [|reflexivity].
    destruct Hkind as [H|[H _]]; rewrite H; reflexivity. }
  assert (Hcb : ictx (in_callback c) = None).
  { unfold in_callback. rewrite Htd. reflexivity. }
  eexists. exists (callback_events c ++ notify_events c ++ settle_events c).
  split; [apply complete_spec, Hi|].
  split; [exact Hcb|].
  split.
  { cbn. unfold complete_events, teardown_events. rewrite Hlat, Htd.
    reflexivity. }
  assert (Hcalls : callbacks (callback_events c ++ notify_events c ++
                              settle_events c) =
                   (if complete_cb c then [in_callback c] else [])).
  { rewrite !callbacks_app. unfold callback_events, notify_events, settle_events.
    rewrite Hcb. destruct (complete_cb c), (async_op_started c); reflexivity. }
  split; [exact Hcalls|]. rewrite Hcalls.
  destruct (complete_cb c); repeat constructor. exact Hcb.
Qed.

Lemma complete_destroys_context_before_callback_witness :
  exists s' after,
    complete 130 {| comp := set_rval (-2)
                              (set_binding (Some an_image) AIO_TYPE_OPEN 100
                                 (new_completion true));
                    trace := [] |} = Ok (tt, s') /\
    ictx (comp s') = None /\
    trace s' = [] ++ EvDeleteCtx an_image :: after /\
    callbacks after =
      [in_callback (set_rval (-2)
                      (set_binding (Some an_image) AIO_TYPE_OPEN 100
                         (new_completion true)))] /\
    Forall (fun seen => ictx seen = None) (callbacks after).
Proof.
  apply (complete_destroys_context_before_callback 130
           (set_rval (-2) (set_binding (Some an_image) AIO_TYPE_OPEN 100
                             (new_completion true))) [] an_image).
  - reflexivity.
  - right. split; [reflexivity|]. cbn. lia.
Defined.

(** ** One report *)

Lemma aggregated_fields (r : Z) (c : AioCompletion) :
  ictx (aggregated r c) = ictx c /\
  pending_count (aggregated r c) = pending_count c /\
  state (aggregated r c) = state c /\
  aio_type (aggregated r c) = aio_type c /\
  complete_cb (aggregated r c) = complete_cb c.
Proof.
  unfold aggregated, compare_exchange_error_rval.
  destruct (r >? 0); [cbn; auto|].
  destruct (negb _); [|auto].
  destruct (error_rval c =? 0); cbn; auto.
Qed.

Lemma finalized_fields (c : AioCompletion) :
  ictx (finalized c) = ictx c /\
  pending_count (finalized c) = pending_count c /\
  error_rval (finalized c) = error_rval c /\
  complete_cb (finalized c) = complete_cb c.
Proof. unfold finalized. destruct (error_rval c <? 0); cbn; auto. Qed.

Lemma completed_fields (c : AioCompletion) :
  rval (completed c) = rval c /\
  error_rval (completed c) = error_rval c /\
  pending_count (completed c) = pending_count c /\
  state (completed c) = AIO_STATE_COMPLETE /\
  complete_cb (completed c) = complete_cb c.
Proof.
  unfold completed, in_callback. destruct (tears_down c); cbn; auto.
Qed.

Lemma complete_request_spec (r now : Z) (s : sys) (i : ImageCtx) :
  ictx (comp s) = Some i ->
  0 < pending_count (comp s) ->
  complete_request r now s =
  Ok (tt,
      if is_last (comp s) then
        {| comp := completed (finalized (reported r (comp s)));
           trace := trace s ++ finalize_events (reported r (comp s)) ++
                    complete_events now (finalized (reported r (comp s))) i ++
                    [EvPut] |}
      else
        {| comp := reported r (comp s); trace := trace s ++ [EvPut] |}).
Proof.
  intros Hi Hp.
  assert (Hri : ictx (reported r (comp s)) = Some i).
  { unfold reported. rewrite (proj1 (aggregated_fields _ _)). exact Hi. }
  unfold complete_request, fetch_sub_pending_count, aggregate, put, is_last.
  unfold_monad.
  destruct (Z.gtb_spec (pending_count (comp s)) 0) as [_|]; [|lia].
  unfold is_bound. cbn. rewrite Hi. cbn.
  fold (reported r (comp s)).
  destruct (Int.to_uint32 (pending_count (comp s) - 1) =? 0); cbn;
    [|reflexivity].
  rewrite finalize_spec by (unfold is_bound; now rewrite Hri).
  rewrite (complete_spec now _ _ i)
    by (rewrite (proj1 (finalized_fields _)); exact Hri).
  cbn. rewrite <- !app_assoc. reflexivity.
Qed.

Lemma complete_request_over_reported (r now : Z) (s : sys) :
  pending_count (comp s) <= 0 ->
  complete_request r now s = Abort Assert_previous_pending_count_positive.
Proof.
  intros Hp. unfold complete_request, fetch_sub_pending_count. unfold_monad.
  destruct (Z.gtb_spec (pending_count (comp s)) 0); [lia|reflexivity].
Qed.

Lemma complete_request_inv (r now : Z) (s s' : sys) :
  complete_request r now s = Ok (tt, s') ->
  comp s' = if is_last (comp s)
            then completed (finalized (reported r (comp s)))
            else reported r (comp s).
Proof.
  intros Hrun.
  destruct (Z_le_gt_dec (pending_count (comp s)) 0) as [H0|H0].
  { rewrite complete_request_over_reported in Hrun by exact H0. discriminate. }
  destruct (ictx (comp s)) as [i|] eqn:Hi.
  - rewrite (complete_request_spec r now s i Hi) in Hrun by lia.
    injection Hrun as <-. destruct (is_last (comp s)); reflexivity.
  - unfold complete_request, fetch_sub_pending_count in Hrun. unfold_monad.
    destruct (pending_count (comp s) >? 0); [|discriminate].
    unfold is_bound in Hrun. cbn in Hrun. rewrite Hi in Hrun. discriminate.
Qed.

(** ** Reports delivered one after the other *)

Lemma same_results_refl (c : AioCompletion) : same_results c c.
Proof. split; reflexivity. Qed.

Lemma same_results_set_pending_count (k : Z) (c : AioCompletion) :
  same_results (set_pending_count k c) c.
Proof. split; reflexivity. Qed.

Lemma aggregated_same (r : Z) (c1 c2 : AioCompletion) :
  same_results c1 c2 -> same_results (aggregated r c1) (aggregated r c2).
Proof.
  intros [Hr He]. unfold same_results, aggregated, compare_exchange_error_rval.
  destruct (r >? 0); [cbn; rewrite Hr; auto|].
  destruct (negb _); [|auto].
  rewrite He. destruct (error_rval c2 =? 0); cbn; auto.
Qed.

Lemma aggregated_all_same (rs : list Z) (c1 c2 : AioCompletion) :
  same_results c1 c2 ->
  same_results (aggregated_all rs c1) (aggregated_all rs c2).
Proof.
  revert c1 c2. induction rs as [|r rs IH]; intros c1 c2 H; [exact H|].
  cbn. apply IH, aggregated_same, H.
Qed.

Lemma finalized_same (c1 c2 : AioCompletion) :
  same_results c1 c2 -> rval (finalized c1) = rval (finalized c2).
Proof.
  intros [Hr He]. unfold finalized. rewrite He.
  destruct (error_rval c2 <? 0); cbn; congruence.
Qed.

Lemma reported_fields (r : Z) (c : AioCompletion) :
  ictx (reported r c) = ictx c /\
  pending_count (reported r c) = Int.to_uint32 (pending_count c - 1) /\
  same_results (reported r c) (aggregated r c).
Proof.
  unfold reported.
  destruct (aggregated_fields r
              (set_pending_count (Int.to_uint32 (pending_count c - 1)) c))
    as (Hi & Hp & _).
  rewrite Hi, Hp. cbn. repeat split; try reflexivity;
    apply aggregated_same, same_results_set_pending_count.
Qed.

Lemma is_last_count (c : AioCompletion) (n : nat) :
  pending_count c = Z.of_nat (S n) -> Z.of_nat (S n) < 2 ^ 32 ->
  Int.to_uint32 (pending_count c - 1) = Z.of_nat n /\
  is_last c = (Z.of_nat n =? 0).
Proof.
  intros Hp Hlt. unfold is_last.
  assert (H : Int.to_uint32 (pending_count c - 1) = Z.of_nat n).
  { rewrite Hp. replace (Z.of_nat (S n) - 1) with (Z.of_nat n) by lia.
    apply IntFacts.to_uint32_id. lia. }
  rewrite H. auto.
Qed.

Lemma deliver_app (now : Z) (rs1 rs2 : list Z) (s : sys) :
  deliver (rs1 ++ rs2) now s = (deliver rs1 now ;; deliver rs2 now) s.
Proof.
  revert s. induction rs1 as [|r rs1 IH]; intros s; [reflexivity|].
  cbn. unfold bind. destruct (complete_request r now s) as [[[] s1]|w];
    [|reflexivity].
  rewrite IH. reflexivity.
Qed.

(** The declared number of reports, delivered in order, completes the
    request with the aggregate of all of them. *)
Lemma deliver_spec (now : Z) (rs : list Z) :
  forall (c : AioCompletion) (tr : list event) (i : ImageCtx),
    ictx c = Some i ->
    rs <> [] ->
    pending_count c = Z.of_nat (length rs) ->
    Z.of_nat (length rs) < 2 ^ 32 ->
    exists s',
      deliver rs now {| comp := c; trace := tr |} = Ok (tt, s') /\
      state (comp s') = AIO_STATE_COMPLETE /\
      pending_count (comp s') = 0 /\
      rval (comp s') = rval (finalized (aggregated_all rs c)) /\
      error_rval (comp s') = error_rval (aggregated_all rs c).
Proof.
  induction rs as [|r rest IH]; intros c tr i Hi Hne Hp Hlt; [congruence|].
  cbn [length] in Hp, Hlt.
  destruct (is_last_count c (length rest) Hp Hlt) as [Hdec Hlast].
  destruct (reported_fields r c) as (Hri & Hrp & Hsame).
  cbn [deliver]. unfold bind.
  rewrite (complete_request_spec r now _ i) by (cbn; lia || exact Hi).
  cbn [comp trace].
  destruct rest as [|r' rest'].
  - change (is_last c = true) in Hlast. rewrite Hlast.
    eexists. split; [reflexivity|]. cbn [comp length Z.of_nat] in *.
    destruct (completed_fields (finalized (reported r c))) as (Hr & He & Hpc & Hs & _).
    destruct (finalized_fields (reported r c)) as (_ & Hfp & Hfe & _).
    rewrite Hs, Hr, He, Hpc, Hfp, Hfe, Hrp, Hdec.
    repeat split; [apply finalized_same, Hsame | apply Hsame].
  - rewrite Hlast.
    destruct (Z.eqb_spec (Z.of_nat (length (r' :: rest'))) 0) as [H0|_];
      [cbn in H0; lia|].
    destruct (IH (reported r c) (tr ++ [EvPut]) i) as (s' & Hrun & Hs & Hpc & Hr & He).
    + rewrite Hri. exact Hi.
    + discriminate.
    + rewrite Hrp. exact Hdec.
    + lia.
    + exists s'. split; [exact Hrun|]. split; [exact Hs|]. split; [exact Hpc|].
      pose proof (aggregated_all_same (r' :: rest') _ _ Hsame) as Hall.
      split.
      * rewrite Hr. apply finalized_same, Hall.
      * rewrite He. apply Hall.
Qed.

(** No more reports than declared: every call returns. *)
Lemma deliver_within_count (now : Z) (rs : list Z) :
  forall (c : AioCompletion) (tr : list event) (i : ImageCtx),
    ictx c = Some i ->
    Z.of_nat (length rs) <= pending_count c < 2 ^ 32 ->
    exists s', deliver rs now {| comp := c; trace := tr |} = Ok (tt, s').
Proof.
  induction rs as [|r rest IH]; intros c tr i Hi Hp.
  - eexists. reflexivity.
  - cbn [length] in Hp. cbn [deliver]. unfold bind.
    rewrite (complete_request_spec r now _ i) by (cbn; lia || exact Hi).
    cbn [comp trace].
    destruct (reported_fields r c) as (Hri & Hrp & _).
    assert (Hdec : Int.to_uint32 (pending_count c - 1) = pending_count c - 1)
      by (apply IntFacts.to_uint32_id; lia).
    unfold is_last. rewrite Hdec.
    destruct (Z.eqb_spec (pending_count c - 1) 0) as [H1|H1].
    + destruct rest; [|cbn in Hp; lia]. eexists. reflexivity.
    + apply (IH _ _ i); [rewrite Hri; exact Hi|]. rewrite Hrp, Hdec. lia.
Qed.

(** One report more than declared: the call that follows the completing
    one fails the assertion on the count. *)
Lemma deliver_over_count (now : Z) (rs : list Z) (r : Z) (later : list Z)
    (c : AioCompletion) (tr : list event) (i : ImageCtx) :
  ictx c = Some i ->
  rs <> [] ->
  pending_count c = Z.of_nat (length rs) ->
  Z.of_nat (length rs) < 2 ^ 32 ->
  deliver (rs ++ r :: later) now {| comp := c; trace := tr |} =
  Abort Assert_previous_pending_count_positive.
Proof.
  intros Hi Hne Hp Hlt. rewrite deliver_app. unfold bind.
  destruct (deliver_spec now rs c tr i Hi Hne Hp Hlt) as (s' & Hrun & _ & Hpc & _).
  rewrite Hrun. cbn [deliver]. unfold bind.
  rewrite complete_request_over_reported by (rewrite Hpc; lia). reflexivity.
Qed.

(** ** The aggregate of the reports *)

Lemma byte_count_nonneg (rs : list Z) : 0 <= byte_count rs.
Proof.
  induction rs as [|r rs IH]; cbn; [lia|].
  destruct (Z.gtb_spec r 0); lia.
Qed.

Lemma is_error_spec (r : Z) : is_error r = true <-> r < 0 /\ r <> - EEXIST.
Proof.
  unfold is_error. rewrite andb_true_iff, negb_true_iff, Z.ltb_lt, Z.eqb_neq.
  reflexivity.
Qed.

Lemma error_latched_stays (r : Z) (c : AioCompletion) :
  error_rval c <> 0 -> error_rval (aggregated r c) = error_rval c.
Proof.
  intros H. unfold aggregated, compare_exchange_error_rval.
  destruct (r >? 0); [reflexivity|]. destruct (negb _); [|reflexivity].
  destruct (Z.eqb_spec (error_rval c) 0); [contradiction|reflexivity].
Qed.

Lemma aggregated_all_cons (r : Z) (rs : list Z) (c : AioCompletion) :
  aggregated_all (r :: rs) c = aggregated_all rs (aggregated r c).
Proof. reflexivity. Qed.

Lemma error_latched_stays_all (rs : list Z) (c : AioCompletion) :
  error_rval c <> 0 -> error_rval (aggregated_all rs c) = error_rval c.
Proof.
  revert c. induction rs as [|r rs IH]; intros c H; [reflexivity|].
  cbn. rewrite IH; rewrite error_latched_stays; auto.
Qed.

Lemma aggregated_error (r : Z) (c : AioCompletion) :
  error_rval c = 0 -> is_error r = true -> Int.INT_MIN <= r ->
  error_rval (aggregated r c) = r.
Proof.
  intros H0 He Hmin. apply is_error_spec in He as [Hneg Hne].
  unfold aggregated, compare_exchange_error_rval.
  destruct (Z.gtb_spec r 0); [lia|].
  destruct (Z.eqb_spec r (- EEXIST)); [contradiction|]. cbn.
  rewrite H0. cbn. apply IntFacts.to_int_id. unfold Int.INT_MAX. lia.
Qed.

Lemma aggregated_not_error (r : Z) (c : AioCompletion) :
  error_rval c = 0 -> is_error r = false ->
  error_rval (aggregated r c) = 0 /\
  rval (aggregated r c) =
    (if r >? 0 then Int.to_ssize (rval c + r) else rval c).
Proof.
  intros H0 He. unfold aggregated, compare_exchange_error_rval.
  destruct (Z.gtb_spec r 0) as [Hpos|Hnpos]; [cbn; auto|].
  destruct (Z.eqb_spec r (- EEXIST)) as [Hs|Hs]; cbn; [auto|].
  assert (r = 0) as ->.
  { destruct (Z.eq_dec r 0) as [|Hr]; [assumption|].
    assert (is_error r = true) by (apply is_error_spec; split; [lia|exact Hs]).
    congruence. }
  rewrite H0. cbn. auto.
Qed.

Lemma aggregated_all_first_error (rs : list Z) :
  forall (c : AioCompletion) (e : Z),
    error_rval c = 0 -> first_error rs = Some e -> Int.INT_MIN <= e ->
    error_rval (aggregated_all rs c) = e.
Proof.
  induction rs as [|r rs IH]; intros c e H0 Hf Hmin; [discriminate|].
  unfold first_error in Hf. cbn in Hf. rewrite aggregated_all_cons.
  destruct (is_error r) eqn:Her.
  - injection Hf as ->.
    pose proof (aggregated_error e c H0 Her Hmin) as Hagg.
    rewrite error_latched_stays_all; [exact Hagg|].
    rewrite Hagg. apply is_error_spec in Her. lia.
  - apply IH; [|exact Hf|exact Hmin].
    apply (aggregated_not_error r c H0 Her).
Qed.

Lemma aggregated_all_no_error (rs : list Z) :
  forall (c : AioCompletion),
    error_rval c = 0 -> first_error rs = None ->
    0 <= rval c -> rval c + byte_count rs <= Int.SSIZE_MAX ->
    error_rval (aggregated_all rs c) = 0 /\
    rval (aggregated_all rs c) = rval c + byte_count rs.
Proof.
  induction rs as [|r rs IH]; intros c H0 Hf Hr Hsum.
  - cbn. split; [exact H0|lia].
  - unfold first_error in Hf. cbn in Hf. cbn [byte_count] in Hsum |- *.
    rewrite aggregated_all_cons.
    destruct (is_error r) eqn:Her; [discriminate|].
    destruct (aggregated_not_error r c H0 Her) as [He' Hr'].
    pose proof (byte_count_nonneg rs) as Hnn.
    destruct (Z.gtb_spec r 0) as [Hpos|Hnpos].
    + rewrite IntFacts.to_ssize_id in Hr'
        by (unfold Int.SSIZE_MIN, Int.SSIZE_MAX in *; lia).
      destruct (IH (aggregated r c) He' Hf) as [He'' Hr'']; [lia|lia|].
      split; [exact He''|]. rewrite Hr'', Hr'. lia.
    + destruct (IH (aggregated r c) He' Hf) as [He'' Hr'']; [lia|lia|].
      split; [exact He''|]. rewrite Hr'', Hr'. lia.
Qed.

(** The result of a request whose reports are delivered in order: the
    first error if there is one and it fits the error slot, and else the
    byte count if it fits the result. *)
Lemma deliver_final_result (now : Z) (rs : list Z) (c : AioCompletion)
    (tr : list event) (i : ImageCtx) :
  ictx c = Some i -> rval c = 0 -> error_rval c = 0 ->
  rs <> [] ->
  pending_count c = Z.of_nat (length rs) ->
  Z.of_nat (length rs) < 2 ^ 32 ->
  (forall e, first_error rs = Some e -> Int.INT_MIN <= e) ->
  (first_error rs = None -> byte_count rs <= Int.SSIZE_MAX) ->
  exists s',
    deliver rs now {| comp := c; trace := tr |} = Ok (tt, s') /\
    state (comp s') = AIO_STATE_COMPLETE /\
    error_rval (comp s') =
      match first_error rs with Some e => e | None => 0 end /\
    get_return_value (comp s') =
      match first_error rs with Some e => e | None => byte_count rs end.
Proof.
  intros Hi Hr0 He0 Hne Hp Hlt Hmin Hsum.
  destruct (deliver_spec now rs c tr i Hi Hne Hp Hlt)
    as (s' & Hrun & Hs & _ & Hr & He).
  exists s'. split; [exact Hrun|]. split; [exact Hs|].
  unfold get_return_value. rewrite Hr, He. unfold finalized.
  destruct (first_error rs) as [e|] eqn:Hf.
  - pose proof (aggregated_all_first_error rs c e He0 Hf (Hmin e eq_refl)) as Hl.
    rewrite Hl. split; [reflexivity|].
    apply find_some in Hf as [_ Herr]. apply is_error_spec in Herr.
    destruct (Z.ltb_spec e 0); [reflexivity|lia].
  - destruct (aggregated_all_no_error rs c He0 Hf) as [Hl Hv];
      [lia|rewrite Hr0; cbn; auto|].
    rewrite Hl. cbn. split; [reflexivity|]. rewrite Hv, Hr0. reflexivity.
Qed.

Lemma first_error_app (a b : list Z) :
  first_error (a ++ b) =
  match first_error a with Some e => Some e | None => first_error b end.
Proof.
  unfold first_error. induction a as [|x a IH]; [reflexivity|].
  cbn. destruct (is_error x); [reflexivity|exact IH].
Qed.

Lemma first_error_after (a m z : list Z) (x e : Z) :
  first_error a = None -> is_error x = false -> first_error m = None ->
  is_error e = true ->
  first_error (a ++ x :: m ++ e :: z) = Some e.
Proof.
  intros Ha Hx Hm He. rewrite first_error_app, Ha.
  change (x :: m ++ e :: z) with ([x] ++ m ++ e :: z).
  rewrite first_error_app. unfold first_error at 1. cbn. rewrite Hx.
  rewrite first_error_app, Hm. unfold first_error. cbn. rewrite He.
  reflexivity.
Qed.

Lemma first_error_permuted :
  forall rs, Permutation rs [5; 3; - EIO; 2] -> first_error rs = Some (- EIO).
Proof.
  intros rs Hperm. destruct (first_error rs) as [e|] eqn:Hf.
  - apply find_some in Hf as [Hin Herr].
    apply (Permutation_in _ Hperm) in Hin. cbn in Hin.
    destruct Hin as [<-|[<-|[<-|[<-|[]]]]];
      first [reflexivity | vm_compute in Herr; discriminate].
  - assert (Hin : In (- EIO) rs).
    { apply (Permutation_in _ (Permutation_sym Hperm)). cbn. auto. }
    apply (find_none _ _ Hf) in Hin. vm_compute in Hin. discriminate.
Qed.

(** C2, as the code has it: when the reports are delivered one after the
    other, in any order, and the first negative report other than the
    sentinel (if any) fits an int, and the positive reports (if there is
    no such negative report) sum to at most SSIZE_MAX, the final result
    is that first negative report if there is one, and else the sum of the
    strictly positive reports.  Reports 5, 3, -EIO, 2 in any order yield
    -EIO, and reports 4, 6 yield 10. *)
Theorem final_result_of_reports :
  (forall now rs c tr i,
      ictx c = Some i -> rval c = 0 -> error_rval c = 0 ->
      rs <> [] ->
      pending_count c = Z.of_nat (length rs) ->
      Z.of_nat (length rs) < 2 ^ 32 ->
      (forall e, first_error rs = Some e -> Int.INT_MIN <= e) ->
      (first_error rs = None -> byte_count rs <= Int.SSIZE_MAX) ->
      exists s',
        deliver rs now {| comp := c; trace := tr |} = Ok (tt, s') /\
        state (comp s') = AIO_STATE_COMPLETE /\
        get_return_value (comp s') =
          match first_error rs with Some e => e | None => byte_count rs end) /\
  (forall now rs c tr i,
      ictx c = Some i -> rval c = 0 -> error_rval c = 0 ->
      pending_count c = 4 ->
      Permutation rs [5; 3; - EIO; 2] ->
      exists s',
        deliver rs now {| comp := c; trace := tr |} = Ok (tt, s') /\
        get_return_value (comp s') = - EIO) /\
  (forall now c tr i,
      ictx c = Some i -> rval c = 0 -> error_rval c = 0 ->
      pending_count c = 2 ->
      exists s',
        deliver [4; 6] now {| comp := c; trace := tr |} = Ok (tt, s') /\
        get_return_value (comp s') = 10).
Proof.
  split; [|split].
  - intros now rs c tr i Hi Hr He Hne Hp Hlt Hmin Hsum.
    destruct (deliver_final_result now rs c tr i Hi Hr He Hne Hp Hlt Hmin Hsum)
      as (s' & Hrun & Hs & _ & Hv).
    exists s'. auto.
  - intros now rs c tr i Hi Hr He Hp Hperm.
    pose proof (first_error_permuted rs Hperm) as Hf.
    pose proof (Permutation_length Hperm) as Hlen. cbn in Hlen.
    destruct (deliver_final_result now rs c tr i Hi Hr He)
      as (s' & Hrun & _ & _ & Hv).
    + intros ->. discriminate.
    + rewrite Hlen, Hp. reflexivity.
    + rewrite Hlen. reflexivity.
    + intros e. rewrite Hf. intros [= <-]. vm_compute. discriminate.
    + rewrite Hf. discriminate.
    + exists s'. rewrite Hf in Hv. auto.
  - intros now c tr i Hi Hr He Hp.
    destruct (deliver_final_result now [4; 6] c tr i Hi Hr He)
      as (s' & Hrun & _ & _ & Hv);
      [discriminate | exact Hp | reflexivity | discriminate
      | intros _; vm_compute; discriminate |].
    exists s'. auto.
Qed.

Lemma final_result_of_reports_witness :
  exists s',
    deliver [5; 3; - EIO; 2] 130
      {| comp := issued AIO_TYPE_WRITE 4; trace := [] |} = Ok (tt, s') /\
    state (comp s') = AIO_STATE_COMPLETE /\
    get_return_value (comp s') =
      match first_error [5; 3; - EIO; 2] with
      | Some e => e
      | None => byte_count [5; 3; - EIO; 2]
      end.
Proof.
  apply (proj1 final_result_of_reports 130 [5; 3; - EIO; 2]
           (issued AIO_TYPE_WRITE 4) [] an_image).
  - reflexivity.
  - reflexivity.
  - reflexivity.
  - discriminate.
  - reflexivity.
  - reflexivity.
  - intros e [= <-]. vm_compute. discriminate.
  - discriminate.
Defined.

(** C2 as stated fails outside these ranges: positive reports whose sum
    exceeds SSIZE_MAX wrap around, and a negative report that does not fit
    an int is not kept as it is (here it leaves the slot at zero). *)
Lemma final_result_out_of_range :
  (exists c,
      result_of (deliver [Int.SSIZE_MAX; 1] 130
                   {| comp := issued AIO_TYPE_WRITE 2; trace := [] |}) = Some c /\
      first_error [Int.SSIZE_MAX; 1] = None /\
      byte_count [Int.SSIZE_MAX; 1] = 2 ^ 63 /\
      get_return_value c = - 2 ^ 63) /\
  (exists c,
      result_of (deliver [- 2 ^ 32; 1] 130
                   {| comp := issued AIO_TYPE_WRITE 2; trace := [] |}) = Some c /\
      first_error [- 2 ^ 32; 1] = Some (- 2 ^ 32) /\
      get_return_value c = 1).
Proof.
  split; eexists; (split; [vm_compute; reflexivity|]); repeat split.
Qed.

(** ** The benign duplicate and the zero report *)

Lemma aggregated_sentinel (c : AioCompletion) : aggregated (- EEXIST) c = c.
Proof. reflexivity. Qed.

Lemma aggregated_zero (c : AioCompletion) : same_results (aggregated 0 c) c.
Proof.
  unfold aggregated, compare_exchange_error_rval. cbn.
  destruct (Z.eqb_spec (error_rval c) 0) as [H|H];
    [|apply same_results_refl].
  split; cbn; [reflexivity|]. rewrite H. reflexivity.
Qed.

Lemma complete_request_results (r now : Z) (s s' : sys) :
  complete_request r now s = Ok (tt, s') ->
  error_rval (comp s') = error_rval (aggregated r (comp s)) /\
  rval (comp s') =
    rval (if is_last (comp s) then finalized (aggregated r (comp s))
          else aggregated r (comp s)).
Proof.
  intros Hrun. rewrite (complete_request_inv r now s s' Hrun).
  destruct (reported_fields r (comp s)) as (_ & _ & Hsame).
  destruct (is_last (comp s)).
  - destruct (completed_fields (finalized (reported r (comp s))))
      as (Hr & He & _).
    rewrite Hr, He, (proj1 (proj2 (proj2 (finalized_fields _)))).
    split; [apply Hsame|apply finalized_same, Hsame].
  - split; apply Hsame.
Qed.

(** C3, as the code has it: a report of -EEXIST leaves the first-error
    slot as it is, so it does not overwrite an error latched before; and
    when -EEXIST is reported while no error is latched, the first later
    negative report other than -EEXIST, provided it fits an int, is
    latched and is the final result. *)
Theorem sentinel_is_never_latched :
  (forall now s s',
      complete_request (- EEXIST) now s = Ok (tt, s') ->
      error_rval (comp s') = error_rval (comp s)) /\
  (forall now before between after e c tr i,
      ictx c = Some i -> rval c = 0 -> error_rval c = 0 ->
      pending_count c =
        Z.of_nat (length (before ++ - EEXIST :: between ++ e :: after)) ->
      Z.of_nat (length (before ++ - EEXIST :: between ++ e :: after)) < 2 ^ 32 ->
      first_error before = None -> first_error between = None ->
      Int.INT_MIN <= e < 0 -> e <> - EEXIST ->
      exists s',
        deliver (before ++ - EEXIST :: between ++ e :: after) now
          {| comp := c; trace := tr |} = Ok (tt, s') /\
        error_rval (comp s') = e /\
        get_return_value (comp s') = e).
Proof.
  split.
  - intros now s s' Hrun.
    destruct (complete_request_results _ _ _ _ Hrun) as [He _].
    rewrite He, aggregated_sentinel. reflexivity.
  - intros now before between after e c tr i Hi Hr He Hp Hlt Hb Hm Hrange Hne.
    assert (Herr : is_error e = true) by (apply is_error_spec; split; [lia|exact Hne]).
    pose proof (first_error_after before between after (- EEXIST) e Hb
                  eq_refl Hm Herr) as Hf.
    destruct (deliver_final_result now
                (before ++ - EEXIST :: between ++ e :: after) c tr i Hi Hr He)
      as (s' & Hrun & _ & Hl & Hv).
    + destruct before; discriminate.
    + exact Hp.
    + exact Hlt.
    + rewrite Hf. intros e' [= <-]. lia.
    + rewrite Hf. discriminate.
    + exists s'. rewrite Hf in Hl, Hv. auto.
Qed.

Lemma sentinel_is_never_latched_witness :
  exists s',
    deliver ([] ++ - EEXIST :: [] ++ - EIO :: []) 130
      {| comp := issued AIO_TYPE_WRITE 2; trace := [] |} = Ok (tt, s') /\
    error_rval (comp s') = - EIO /\
    get_return_value (comp s') = - EIO.
Proof.
  apply (proj2 sentinel_is_never_latched 130 [] [] [] (- EIO)
           (issued AIO_TYPE_WRITE 2) [] an_image);
    try reflexivity.
  - vm_compute. split; [discriminate|reflexivity].
  - discriminate.
Defined.

(** C3 as stated fails for a later negative report that does not fit an
    int: after -EEXIST, the report -2^32 is not latched and is not the
    final result. *)
Lemma sentinel_then_wide_error :
  exists c,
    result_of (deliver [- EEXIST; - 2 ^ 32] 130
                 {| comp := issued AIO_TYPE_WRITE 2; trace := [] |}) = Some c /\
    is_error (- 2 ^ 32) = true /\
    error_rval c = 0 /\
    get_return_value c = 0.
Proof. eexists. split; [vm_compute; reflexivity|]. repeat split. Qed.

(** C10, as the code has it: a report of 0 leaves the result and the
    first-error slot as they are (it is not added, and the exchange puts 0
    into a slot that holds 0, or fails); so the first later negative
    report other than -EEXIST, provided it fits an int, is latched and is
    the final result; and the reports 0, 5 yield 5. *)
Theorem zero_report_is_neutral :
  (forall c, rval (aggregated 0 c) = rval c /\
             error_rval (aggregated 0 c) = error_rval c) /\
  (forall now s s',
      complete_request 0 now s = Ok (tt, s') ->
      error_rval (comp s') = error_rval (comp s) /\
      rval (comp s') =
        (if is_last (comp s) then rval (finalized (comp s)) else rval (comp s))) /\
  (forall now before between after e c tr i,
      ictx c = Some i -> rval c = 0 -> error_rval c = 0 ->
      pending_count c =
        Z.of_nat (length (before ++ 0 :: between ++ e :: after)) ->
      Z.of_nat (length (before ++ 0 :: between ++ e :: after)) < 2 ^ 32 ->
      first_error before = None -> first_error between = None ->
      Int.INT_MIN <= e < 0 -> e <> - EEXIST ->
      exists s',
        deliver (before ++ 0 :: between ++ e :: after) now
          {| comp := c; trace := tr |} = Ok (tt, s') /\
        error_rval (comp s') = e /\
        get_return_value (comp s') = e) /\
  (forall now c tr i,
      ictx c = Some i -> rval c = 0 -> error_rval c = 0 ->
      pending_count c = 2 ->
      exists s',
        deliver [0; 5] now {| comp := c; trace := tr |} = Ok (tt, s') /\
        get_return_value (comp s') = 5).
Proof.
  split; [|split; [|split]].
  - intros c. apply aggregated_zero.
  - intros now s s' Hrun.
    destruct (complete_request_results _ _ _ _ Hrun) as [He Hr].
    destruct (aggregated_zero (comp s)) as [Hzr Hze].
    rewrite He, Hr. split; [exact Hze|].
    destruct (is_last (comp s)); [|exact Hzr].
    apply finalized_same. split; assumption.
  - intros now before between after e c tr i Hi Hr He Hp Hlt Hb Hm Hrange Hne.
    assert (Herr : is_error e = true) by (apply is_error_spec; split; [lia|exact Hne]).
    pose proof (first_error_after before between after 0 e Hb
                  eq_refl Hm Herr) as Hf.
    destruct (deliver_final_result now
                (before ++ 0 :: between ++ e :: after) c tr i Hi Hr He)
      as (s' & Hrun & _ & Hl & Hv).
    + destruct before; discriminate.
    + exact Hp.
    + exact Hlt.
    + rewrite Hf. intros e' [= <-]. lia.
    + rewrite Hf. discriminate.
    + exists s'. rewrite Hf in Hl, Hv. auto.
  - intros now c tr i Hi Hr He Hp.
    destruct (deliver_final_result now [0; 5] c tr i Hi Hr He)
      as (s' & Hrun & _ & _ & Hv);
      [discriminate | exact Hp | reflexivity | discriminate
      | intros _; vm_compute; discriminate |].
    exists s'. auto.
Qed.

Lemma zero_report_is_neutral_witness :
  exists s',
    deliver [0; 5] 130 {| comp := issued AIO_TYPE_READ 2; trace := [] |}
      = Ok (tt, s') /\
    get_return_value (comp s') = 5.
Proof.
  apply (proj2 (proj2 (proj2 zero_report_is_neutral)) 130
           (issued AIO_TYPE_READ 2) [] an_image); reflexivity.
Defined.

(** C10 as stated fails for a later negative report that does not fit an
    int: after 0, the report -2^33 leaves the slot at zero and the final
    result at 0. *)
Lemma zero_then_wide_error :
  exists c,
    result_of (deliver [0; - 2 ^ 33] 130
                 {| comp := issued AIO_TYPE_WRITE 2; trace := [] |}) = Some c /\
    is_error (- 2 ^ 33) = true /\
    error_rval c = 0 /\
    get_return_value c = 0.
Proof. eexists. split; [vm_compute; reflexivity|]. repeat split. Qed.

(** ** Protocol violations *)

Lemma set_request_count_ok (n : Z) (s : sys) (i : ImageCtx) :
  ictx (comp s) = Some i -> pending_count (comp s) = 0 ->
  exists evs,
    set_request_count n s =
    Ok (tt, {| comp := set_pending_count (if n =? 0 then 1 else n) (comp s);
               trace := trace s ++ evs |}).
Proof.
  intros Hi Hp. unfold set_request_count. unfold_monad. rewrite Hi, Hp. cbn.
  destruct (n =? 0); cbn; eexists; [reflexivity|].
  rewrite app_nil_r. reflexivity.
Qed.

Lemma set_request_count_again (n : Z) (s : sys) :
  is_bound (comp s) = true -> pending_count (comp s) <> 0 ->
  set_request_count n s = Abort Assert_previous_pending_count_zero.
Proof.
  unfold set_request_count, is_bound. unfold_monad. intros Hb Hp.
  destruct (ictx (comp s)); [|discriminate].
  destruct (Z.eqb_spec (pending_count (comp s)) 0); [contradiction|].
  reflexivity.
Qed.

Lemma declared_count (n : Z) :
  0 <= n -> (if n =? 0 then 1 else n) = Z.max n 1.
Proof. intros H. destruct (Z.eqb_spec n 0); lia. Qed.

(** ** Concurrent reports *)

Lemma tally_bounds {A} (f : A -> bool) (l : list A) :
  0 <= tally f l <= Z.of_nat (length l).
Proof.
  induction l as [|x l IH]; cbn [tally length]; [lia|].
  destruct (f x); lia.
Qed.

Lemma tally_insert {A} (f : A -> bool) (l : list A) (i : nat) (x y : A) :
  l !! i = Some x ->
  tally f (<[i := y]> l) =
  tally f l - (if f x then 1 else 0) + (if f y then 1 else 0).
Proof.
  revert i. induction l as [|z l IH]; intros i Hl; [discriminate|].
  destruct i as [|i].
  - injection Hl as ->. change (<[0%nat := y]> (x :: l)) with (y :: l).
    cbn [tally]. lia.
  - change ((z :: l) !! S i) with (l !! i) in Hl.
    change (<[S i := y]> (z :: l)) with (z :: <[i := y]> l).
    cbn [tally]. rewrite (IH i Hl). lia.
Qed.

Lemma tally_lookup {A} (f : A -> bool) (l : list A) (i : nat) (x : A) :
  l !! i = Some x -> f x = true -> 1 <= tally f l.
Proof.
  revert i. induction l as [|z l IH]; intros i Hl Hf; [discriminate|].
  destruct i as [|i]; cbn [tally].
  - injection Hl as ->. rewrite Hf. pose proof (tally_bounds f l). lia.
  - change ((z :: l) !! S i) with (l !! i) in Hl.
    pose proof (IH i Hl Hf). destruct (f z); lia.
Qed.

Lemma tally_le {A} (f g : A -> bool) (l : list A) :
  Forall (fun x => f x = true -> g x = true) l -> tally f l <= tally g l.
Proof.
  induction 1 as [|x l Hx _ IH]; cbn; [lia|].
  destruct (f x); [rewrite Hx by reflexivity; lia|].
  destruct (g x); lia.
Qed.

Lemma tally_eq {A} (f g : A -> bool) (l : list A) :
  Forall (fun x => f x = g x) l -> tally f l = tally g l.
Proof.
  induction 1 as [|x l Hx _ IH]; cbn; [reflexivity|]. rewrite Hx, IH.
  reflexivity.
Qed.

Lemma tally_none {A} (f : A -> bool) (l : list A) :
  Forall (fun x => f x = false) l -> tally f l = 0.
Proof.
  induction 1 as [|x l Hx _ IH]; cbn; [reflexivity|]. rewrite Hx, IH.
  reflexivity.
Qed.

Lemma tally_all {A} (f : A -> bool) (l : list A) :
  Forall (fun x => f x = true) l -> tally f l = Z.of_nat (length l).
Proof.
  induction 1 as [|x l Hx _ IH]; cbn [tally length]; [reflexivity|].
  rewrite Hx, IH. lia.
Qed.

Lemma callbacks_finalize_events (c : AioCompletion) :
  callbacks (finalize_events c) = [].
Proof. unfold finalize_events. destruct (_ && _); reflexivity. Qed.

Lemma callbacks_complete_events (now : Z) (c : AioCompletion) (i : ImageCtx) :
  callbacks (complete_events now c i) =
  (if complete_cb c then [in_callback c] else []).
Proof.
  unfold complete_events, latency_events, teardown_events, callback_events,
    notify_events, settle_events.
  rewrite !callbacks_app.
  destruct (perfcounter i); [destruct (latency_counter _)|];
    destruct (tears_down c); destruct (complete_cb c);
    destruct (ictx (in_callback c)); try destruct (_ && _);
    destruct (async_op_started c); reflexivity.
Qed.

Lemma finalize_unbound (s : sys) :
  is_bound (comp s) = false -> finalize s = Abort Assert_ictx_not_null.
Proof. intros H. unfold finalize. unfold_monad. rewrite H. reflexivity. Qed.

(** What one step of a thread does to the count, to the registration of
    the callback and to the callback invocations, and where it leaves the
    thread. *)
Lemma thread_step_effect (now : Z) (t t' : thread) (s s' : sys) :
  thread_step now t s = Ok (t', s') ->
  complete_cb (comp s') = complete_cb (comp s) /\
  match at_point t with
  | AtDecrement =>
      0 < pending_count (comp s) /\
      pending_count (comp s') = Int.to_uint32 (pending_count (comp s) - 1) /\
      callbacks (trace s') = callbacks (trace s) /\
      at_point t' = AtAssertCtx /\
      previous_pending_count t' = pending_count (comp s)
  | AtAssertCtx =>
      pending_count (comp s') = pending_count (comp s) /\
      callbacks (trace s') = callbacks (trace s) /\
      t' = goto AtAggregate t
  | AtAggregate =>
      pending_count (comp s') = pending_count (comp s) /\
      callbacks (trace s') = callbacks (trace s) /\
      t' = goto (if Int.to_uint32 (previous_pending_count t - 1) =? 0
                 then AtFinalize else AtPut) t
  | AtFinalize =>
      pending_count (comp s') = pending_count (comp s) /\
      callbacks (trace s') = callbacks (trace s) /\
      t' = goto AtComplete t
  | AtComplete =>
      pending_count (comp s') = pending_count (comp s) /\
      callbacks (trace s') =
        callbacks (trace s) ++
        (if complete_cb (comp s) then [in_callback (comp s)] else []) /\
      t' = goto AtPut t
  | AtPut =>
      pending_count (comp s') = pending_count (comp s) /\
      callbacks (trace s') = callbacks (trace s) /\
      t' = goto Returned t
  | Returned =>
      pending_count (comp s') = pending_count (comp s) /\
      callbacks (trace s') = callbacks (trace s) /\
      t' = t
  end.
Proof.
  unfold thread_step. destruct s as [c tr]. destruct (at_point t) eqn:Hat.
  - unfold fetch_sub_pending_count. unfold_monad.
    destruct (Z.gtb_spec (pending_count c) 0) as [Hpos|]; [|discriminate].
    intros [= <- <-]. cbn. repeat split; lia.
  - unfold_monad. destruct (is_bound c); [|discriminate].
    intros [= <- <-]. cbn. auto.
  - unfold aggregate. unfold_monad. intros [= <- <-]. cbn.
    destruct (aggregated_fields (report t) c) as (_ & Hp & _ & _ & Hcb).
    rewrite Hp, Hcb. auto.
  - unfold bind, ret. destruct (is_bound c) eqn:Hb.
    + rewrite finalize_spec by exact Hb. intros [= <- <-]. cbn [comp trace].
      destruct (finalized_fields c) as (_ & Hp & _ & Hcb).
      rewrite Hp, Hcb, callbacks_app, callbacks_finalize_events, app_nil_r.
      auto.
    + rewrite finalize_unbound by exact Hb. discriminate.
  - unfold bind, ret. destruct (ictx c) as [i|] eqn:Hi.
    + rewrite (complete_spec now c tr i Hi). intros [= <- <-]. cbn [comp trace].
      destruct (completed_fields c) as (_ & _ & Hp & _ & Hcb).
      rewrite Hp, Hcb, callbacks_app, callbacks_complete_events. auto.
    + rewrite complete_unbound by exact Hi. discriminate.
  - unfold put. unfold_monad. intros [= <- <-]. cbn.
    rewrite callbacks_app, app_nil_r. auto.
  - unfold ret. intros [= <- <-]. auto.
Qed.

Lemma goto_fields (pt : program_point) (t : thread) :
  at_point (goto pt t) = pt /\
  previous_pending_count (goto pt t) = previous_pending_count t.
Proof. split; reflexivity. Qed.

Lemma flags_at (t : thread) (pt : program_point) :
  at_point t = pt ->
  at_decrement t = match pt with AtDecrement => true | _ => false end /\
  saw_zero t = match pt with
               | AtDecrement => false
               | _ => previous_pending_count t =? 1
               end /\
  ran_complete t = match pt with
                   | AtPut | Returned => previous_pending_count t =? 1
                   | _ => false
                   end /\
  finishing t = match pt with AtFinalize | AtComplete => true | _ => false end.
Proof. intros <-. repeat split. Qed.

Ltac flags t Hat :=
  let F := fresh "F" in
  pose proof (flags_at t _ Hat) as F;
  cbv beta iota in F; cbn [goto previous_pending_count] in F;
  let F1 := fresh "F" in let F2 := fresh "F" in
  let F3 := fresh "F" in let F4 := fresh "F" in
  destruct F as (F1 & F2 & F3 & F4);
  rewrite ?F1, ?F2, ?F3, ?F4 in *; clear F1 F2 F3 F4.

Ltac split_invariant Hl :=
  constructor; cbn [shared threads];
  rewrite ?length_insert, ?(tally_insert _ _ _ _ _ Hl);
  [ | | | apply Forall_insert; [assumption|]
        | apply Forall_insert; [assumption|] | | ].

Ltac eqb_cases :=
  repeat match goal with
         | |- context [?a =? ?b] => destruct (Z.eqb_spec a b)
         end.

Ltac close_field Hzero Hcalls cb :=
  cbn [goto previous_pending_count];
  first [ assumption
        | solve [intros [=]]
        | solve [intros _; lia]
        | solve [rewrite ?Hzero, ?Hcalls; eqb_cases;
                 first [lia | destruct cb; lia]] ].

(** Every step of the pool keeps the invariant. *)
Lemma pool_step_invariant (cb : bool) (before now : Z) (i : nat) (p p' : pool) :
  pool_invariant cb before p ->
  pool_step now i p = Ok p' ->
  pool_invariant cb before p'.
Proof.
  intros [Hsize Hpend Hzero Hlocal Hfin Hcb Hcalls] Hstep.
  unfold pool_step in Hstep.
  destruct (threads p !! i) as [t|] eqn:Hl;
    [|injection Hstep as <-; constructor; assumption].
  destruct (thread_step now t (shared p)) as [[t' s']|w] eqn:Hts;
    [|discriminate].
  injection Hstep as <-.
  destruct (thread_step_effect now t t' (shared p) s' Hts) as [Hcb' Heff].
  pose proof (Forall_lookup_1 _ _ _ _ Hlocal Hl) as Hlt.
  pose proof (Forall_lookup_1 _ _ _ _ Hfin Hl) as Hft.
  pose proof (tally_bounds at_decrement (threads p)) as Hb.
  cbv beta in Hlt, Hft.
  destruct (at_point t) eqn:Hat.
  - destruct Heff as (Hpos & Hp' & Hc' & Hat' & Hprev').
    assert (Hdec : Int.to_uint32 (pending_count (comp (shared p)) - 1) =
                   pending_count (comp (shared p)) - 1)
      by (apply IntFacts.to_uint32_id; lia).
    split_invariant Hl; flags t Hat; flags t' Hat';
      rewrite ?Hp', ?Hdec, ?Hc', ?Hcb', ?Hprev';
      close_field Hzero Hcalls cb.
  - destruct Heff as (Hp' & Hc' & ->).
    split_invariant Hl; flags t Hat;
      flags (goto AtAggregate t) (eq_refl AtAggregate);
      rewrite ?Hp', ?Hc', ?Hcb'; close_field Hzero Hcalls cb.
  - destruct Heff as (Hp' & Hc' & ->).
    flags t Hat.
    assert (Hrange : 0 < previous_pending_count t < 2 ^ 32)
      by (apply Hlt; reflexivity).
    assert (Hdec : Int.to_uint32 (previous_pending_count t - 1) =
                   previous_pending_count t - 1)
      by (apply IntFacts.to_uint32_id; lia).
    rewrite Hdec.
    destruct (Z.eqb_spec (previous_pending_count t - 1) 0) as [Hone|Hmore].
    + split_invariant Hl; flags t Hat;
        flags (goto AtFinalize t) (eq_refl AtFinalize);
        rewrite ?Hp', ?Hc', ?Hcb'; close_field Hzero Hcalls cb.
    + split_invariant Hl; flags t Hat;
        flags (goto AtPut t) (eq_refl AtPut);
        rewrite ?Hp', ?Hc', ?Hcb'; close_field Hzero Hcalls cb.
  - destruct Heff as (Hp' & Hc' & ->).
    split_invariant Hl; flags t Hat;
      flags (goto AtComplete t) (eq_refl AtComplete);
      rewrite ?Hp', ?Hc', ?Hcb'; close_field Hzero Hcalls cb.
  - destruct Heff as (Hp' & Hc' & ->).
    flags t Hat.
    assert (Hone : previous_pending_count t = 1) by (apply Hft; reflexivity).
    split_invariant Hl; flags t Hat; flags (goto AtPut t) (eq_refl AtPut);
      rewrite ?Hp', ?Hc', ?Hcb', ?length_app, ?Nat2Z.inj_add, ?Hone;
      try close_field Hzero Hcalls cb.
    rewrite Hcalls, Hcb. destruct cb; cbn; lia.
  - destruct Heff as (Hp' & Hc' & ->).
    split_invariant Hl; flags t Hat;
      flags (goto Returned t) (eq_refl Returned);
      rewrite ?Hp', ?Hc', ?Hcb'; close_field Hzero Hcalls cb.
  - destruct Heff as (Hp' & Hc' & ->).
    rewrite list_insert_id by exact Hl.
    constructor; cbn [shared threads]; rewrite ?Hp', ?Hc', ?Hcb'; assumption.
Qed.

Lemma run_invariant (cb : bool) (before now : Z) (schedule : list nat) :
  forall p p',
    pool_invariant cb before p ->
    run now schedule p = Ok p' ->
    pool_invariant cb before p'.
Proof.
  induction schedule as [|i later IH]; intros p p' Hinv Hrun; cbn in Hrun.
  - injection Hrun as <-. exact Hinv.
  - destruct (pool_step now i p) as [p1|w] eqn:Hstep; [|discriminate].
    apply (IH p1 p'); [|exact Hrun].
    apply (pool_step_invariant cb before now i p p1 Hinv Hstep).
Qed.

Lemma spawn_invariant (s : sys) (rs : list Z) :
  rs <> [] ->
  Z.of_nat (length rs) < 2 ^ 32 ->
  pending_count (comp s) = Z.of_nat (length rs) ->
  pool_invariant (complete_cb (comp s))
    (Z.of_nat (length (callbacks (trace s)))) (spawn s rs).
Proof.
  intros Hne Hlt Hp.
  assert (Hall : forall (P : thread -> Prop),
             (forall r, P (call r)) -> Forall P (map call rs)).
  { intros P HP. apply Forall_map, Forall_forall. intros r _. apply HP. }
  assert (Hlen : (0 < length rs)%nat) by (destruct rs; [congruence|cbn; lia]).
  constructor; cbn [spawn shared threads].
  - rewrite length_map. exact Hlt.
  - rewrite tally_all by (apply Hall; reflexivity).
    rewrite length_map. exact Hp.
  - rewrite tally_none by (apply Hall; reflexivity).
    destruct (Z.eqb_spec (pending_count (comp s)) 0); [lia|reflexivity].
  - apply Hall. intros r [=].
  - apply Hall. intros r [=].
  - reflexivity.
  - rewrite tally_none by (apply Hall; reflexivity). destruct (complete_cb _); lia.
Qed.

(** Whatever the schedule of the threads that report the declared number
    of results: at most one thread sees the
    count go to zero, and the callback is invoked at most once; when all
    threads have returned, exactly one thread has seen zero, and the
    callback, if registered, was invoked exactly once. *)
Theorem finish_sequence_runs_once
    (now : Z) (schedule : list nat) (rs : list Z) (s : sys) (p : pool) :
  rs <> [] ->
  Z.of_nat (length rs) < 2 ^ 32 ->
  pending_count (comp s) = Z.of_nat (length rs) ->
  run now schedule (spawn s rs) = Ok p ->
  tally saw_zero (threads p) <= 1 /\
  (length (callbacks (trace (shared p))) <= length (callbacks (trace s)) + 1)%nat /\
  (Forall (fun t => has_returned t = true) (threads p) ->
   tally saw_zero (threads p) = 1 /\
   length (callbacks (trace (shared p))) =
     (length (callbacks (trace s)) + (if complete_cb (comp s) then 1 else 0))%nat).
Proof.
  intros Hne Hlt Hp Hrun.
  destruct (run_invariant _ _ now schedule _ p (spawn_invariant s rs Hne Hlt Hp) Hrun)
    as [_ Hpend Hzero _ _ _ Hcalls].
  assert (Hle : tally ran_complete (threads p) <= tally saw_zero (threads p)).
  { apply tally_le, Forall_forall. intros t _.
    unfold ran_complete, saw_zero. destruct (at_point t); congruence. }
  assert (Hone : tally saw_zero (threads p) <= 1).
  { rewrite Hzero. destruct (_ =? 0); lia. }
  pose proof (tally_bounds ran_complete (threads p)) as Hb.
  split; [exact Hone|]. split.
  - destruct (complete_cb (comp s)); lia.
  - intros Hret.
    assert (H0 : tally at_decrement (threads p) = 0).
    { apply tally_none. eapply Forall_impl; [exact Hret|].
      intros t. unfold has_returned, at_decrement.
      destruct (at_point t); congruence. }
    assert (Heq : tally ran_complete (threads p) = tally saw_zero (threads p)).
    { apply tally_eq. eapply Forall_impl; [exact Hret|].
      intros t. unfold has_returned, ran_complete, saw_zero.
      destruct (at_point t); congruence. }
    rewrite Hpend, H0 in Hzero. cbn in Hzero.
    split; [exact Hzero|]. destruct (complete_cb (comp s)); lia.
Qed.

Lemma finish_sequence_runs_once_witness :
  exists p,
    run 130 [0; 1; 1; 1; 1; 1; 1; 0; 0; 0]%nat
      (spawn {| comp := issued AIO_TYPE_WRITE 2; trace := [] |} [- EIO; 3])
      = Ok p /\
    tally saw_zero (threads p) <= 1.
Proof.
  eexists. split; [vm_compute; reflexivity|].
  eapply (finish_sequence_runs_once 130 [0; 1; 1; 1; 1; 1; 1; 0; 0; 0]%nat
            [- EIO; 3] {| comp := issued AIO_TYPE_WRITE 2; trace := [] |}).
  - discriminate.
  - reflexivity.
  - reflexivity.
  - vm_compute. reflexivity.
Defined.

(** A thread that runs alone performs [complete_request]. *)
Lemma complete_request_as_thread (r now : Z) (s : sys) :
  complete_request r now s =
  match thread_steps now 6 (call r) s with
  | Ok (_, s') => Ok (tt, s')
  | Abort w => Abort w
  end.
Proof.
  destruct s as [[st rv er pc ty ic stt cb en ao] tr].
  unfold complete_request, thread_steps, thread_step, call,
    fetch_sub_pending_count, aggregate, put, goto, is_bound.
  unfold_monad.
  destruct (pc >? 0); [|reflexivity]. cbn.
  destruct ic as [i|]; [|reflexivity]. cbn.
  destruct (Int.to_uint32 (pc - 1) =? 0); cbn; [|reflexivity].
  destruct (finalize _) as [[[] s1]|w]; [|reflexivity]. cbn.
  destruct (complete now s1) as [[[] s2]|w]; reflexivity.
Qed.

Lemma thread_step_abort (now : Z) (t : thread) (s : sys) :
  thread_step now t s = Abort Assert_previous_pending_count_positive ->
  at_point t = AtDecrement /\ pending_count (comp s) <= 0.
Proof.
  unfold thread_step. destruct s as [c tr]. destruct (at_point t).
  - unfold fetch_sub_pending_count. unfold_monad.
    destruct (Z.gtb_spec (pending_count c) 0); [discriminate|].
    intros _. split; [reflexivity|lia].
  - unfold_monad. destruct (is_bound c); discriminate.
  - unfold aggregate. unfold_monad. discriminate.
  - unfold bind, ret. destruct (is_bound c) eqn:Hb.
    + rewrite finalize_spec by exact Hb. discriminate.
    + rewrite finalize_unbound by exact Hb. discriminate.
  - unfold bind, ret. destruct (ictx c) as [i|] eqn:Hi.
    + rewrite (complete_spec now c tr i Hi). discriminate.
    + rewrite complete_unbound by exact Hi. discriminate.
  - unfold put. unfold_monad. discriminate.
  - unfold ret. discriminate.
Qed.

(** Under any schedule of the declared number of reports, the assertion
    on the count never fails. *)
Lemma run_never_over_decrements
    (now : Z) (schedule : list nat) (rs : list Z) (s : sys) :
  rs <> [] ->
  Z.of_nat (length rs) < 2 ^ 32 ->
  pending_count (comp s) = Z.of_nat (length rs) ->
  run now schedule (spawn s rs) <> Abort Assert_previous_pending_count_positive.
Proof.
  intros Hne Hlt Hp.
  pose proof (spawn_invariant s rs Hne Hlt Hp) as Hinv.
  revert Hinv. generalize (spawn s rs).
  induction schedule as [|i later IH]; intros p Hinv; cbn; [discriminate|].
  destruct (pool_step now i p) as [p1|w] eqn:Hstep.
  - apply IH. exact (pool_step_invariant _ _ now i p p1 Hinv Hstep).
  - intros [= ->]. unfold pool_step in Hstep.
    destruct (threads p !! i) as [t|] eqn:Hl; [|discriminate].
    destruct (thread_step now t (shared p)) as [[t' s']|w] eqn:Hts;
      [discriminate|].
    injection Hstep as ->.
    destruct (thread_step_abort now t (shared p) Hts) as [Hat Hpc].
    assert (Hflag : at_decrement t = true)
      by (unfold at_decrement; rewrite Hat; reflexivity).
    pose proof (tally_lookup at_decrement _ _ _ Hl Hflag).
    rewrite (inv_pending _ _ _ Hinv) in Hpc. lia.
Qed.

(** C1 fails on the code: the count is decremented before the report is
    aggregated, so the thread that brings the count to zero can run the
    finishing sequence while another thread, which has decremented, has
    not aggregated yet.  Two threads report -EIO and 3; thread 0
    decrements, thread 1 runs to its end, thread 0 resumes.  The callback
    is invoked once, and sees the result 3 and no error; the error is
    latched after the finishing sequence and never reaches the result.
    Delivered one after the other, the same reports yield -EIO. *)
Theorem callback_before_all_reports_accounted :
  exists p seen c,
    run 130 [0; 1; 1; 1; 1; 1; 1; 0; 0; 0]%nat
      (spawn {| comp := issued AIO_TYPE_WRITE 2; trace := [] |} [- EIO; 3])
      = Ok p /\
    Forall (fun t => has_returned t = true) (threads p) /\
    callbacks (trace (shared p)) = [seen] /\
    get_return_value seen = 3 /\
    error_rval seen = 0 /\
    get_return_value (comp (shared p)) = 3 /\
    error_rval (comp (shared p)) = - EIO /\
    result_of (deliver [- EIO; 3] 130
                 {| comp := issued AIO_TYPE_WRITE 2; trace := [] |}) = Some c /\
    get_return_value c = - EIO.
Proof.
  eexists. eexists. eexists.
  split; [vm_compute; reflexivity|].
  split; [repeat constructor|].
  split; [reflexivity|].
  repeat split.
Qed.

(** C5: a second [set_request_count] while the count is not zero fails the
    assertion on the previous count, and a [complete_request] while the
    count is zero (one report more than declared) fails the assertion on
    the count; both abort.  When the count is declared once and at most
    as many reports follow as were declared, every call returns. *)
Theorem protocol_violations_abort :
  (forall s n,
      is_bound (comp s) = true -> pending_count (comp s) <> 0 ->
      set_request_count n s = Abort Assert_previous_pending_count_zero) /\
  (forall c tr i n m,
      ictx c = Some i -> pending_count c = 0 ->
      (set_request_count n ;; set_request_count m) {| comp := c; trace := tr |}
      = Abort Assert_previous_pending_count_zero) /\
  (forall s r now,
      pending_count (comp s) = 0 ->
      complete_request r now s = Abort Assert_previous_pending_count_positive) /\
  (forall c tr i n rs now,
      ictx c = Some i -> pending_count c = 0 -> 0 <= n < 2 ^ 32 ->
      Z.max n 1 < Z.of_nat (length rs) ->
      (set_request_count n ;; deliver rs now) {| comp := c; trace := tr |}
      = Abort Assert_previous_pending_count_positive) /\
  (forall c tr i n rs now,
      ictx c = Some i -> pending_count c = 0 -> 0 <= n < 2 ^ 32 ->
      Z.of_nat (length rs) <= Z.max n 1 ->
      exists s',
        (set_request_count n ;; deliver rs now) {| comp := c; trace := tr |}
        = Ok (tt, s')) /\
  (forall now schedule rs s,
      rs <> [] -> Z.of_nat (length rs) < 2 ^ 32 ->
      pending_count (comp s) = Z.of_nat (length rs) ->
      run now schedule (spawn s rs)
      <> Abort Assert_previous_pending_count_positive).
Proof.
  split; [|split; [|split; [|split; [|split]]]];
    [| | | | |exact run_never_over_decrements].
  - intros s n. apply set_request_count_again.
  - intros c tr i n m Hi Hp. unfold bind.
    destruct (set_request_count_ok n {| comp := c; trace := tr |} i Hi Hp)
      as [evs ->].
    apply set_request_count_again.
    + unfold is_bound. cbn. rewrite Hi. reflexivity.
    + cbn. destruct (Z.eqb_spec n 0); lia.
  - intros s r now Hp. apply complete_request_over_reported. lia.
  - intros c tr i n rs now Hi Hp Hn Hlen. unfold bind.
    destruct (set_request_count_ok n {| comp := c; trace := tr |} i Hi Hp)
      as [evs ->].
    rewrite declared_count by lia. cbn [comp trace].
    set (k := Z.to_nat (Z.max n 1)).
    assert (Hk : (k < length rs)%nat) by lia.
    rewrite <- (take_drop k rs).
    destruct (drop k rs) as [|r later] eqn:Hdrop.
    { apply (f_equal length) in Hdrop. rewrite length_drop in Hdrop.
      cbn in Hdrop. lia. }
    assert (Htake : length (take k rs) = k) by (rewrite length_take; lia).
    apply (deliver_over_count now (take k rs) r later _ _ i).
    + exact Hi.
    + intros Hnil. rewrite Hnil in Htake. cbn in Htake. lia.
    + cbn. rewrite Htake. lia.
    + rewrite Htake. lia.
  - intros c tr i n rs now Hi Hp Hn Hlen. unfold bind.
    destruct (set_request_count_ok n {| comp := c; trace := tr |} i Hi Hp)
      as [evs ->].
    rewrite declared_count by lia.
    apply (deliver_within_count now rs _ _ i); [exact Hi|]. cbn. lia.
Qed.

Lemma protocol_violations_abort_witness :
  set_request_count 3 {| comp := issued AIO_TYPE_WRITE 2; trace := [] |}
  = Abort Assert_previous_pending_count_zero.
Proof.
  apply (proj1 protocol_violations_abort
           {| comp := issued AIO_TYPE_WRITE 2; trace := [] |} 3).
  - reflexivity.
  - cbn. lia.
Defined.

(** * Further properties of the code *)

(** ** Fields that reports and finalization leave alone *)

Lemma same_request_refl (c : AioCompletion) : same_request c c.
Proof. repeat split. Qed.

Lemma same_request_trans (c1 c2 c3 : AioCompletion) :
  same_request c1 c2 -> same_request c2 c3 -> same_request c1 c3.
Proof.
  unfold same_request. intros (?&?&?&?&?&?&?) (?&?&?&?&?&?&?).
  repeat split; congruence.
Qed.

Lemma aggregated_same_request (r : Z) (c : AioCompletion) :
  same_request (aggregated r c) c.
Proof.
  unfold aggregated, compare_exchange_error_rval.
  destruct (r >? 0); [repeat split|].
  destruct (negb _); [|repeat split].
  destruct (error_rval c =? 0); repeat split.
Qed.

Lemma reported_same_request (r : Z) (c : AioCompletion) :
  same_request (reported r c) c.
Proof.
  unfold reported.
  eapply same_request_trans; [apply aggregated_same_request|repeat split].
Qed.

Lemma finalized_same_request (c : AioCompletion) :
  same_request (finalized c) c.
Proof. unfold finalized. destruct (error_rval c <? 0); repeat split. Qed.

Lemma reported_all_cons (r : Z) (rs : list Z) (c : AioCompletion) :
  reported_all (r :: rs) c = reported_all rs (reported r c).
Proof. reflexivity. Qed.

Lemma reported_all_same_request (rs : list Z) (c : AioCompletion) :
  same_request (reported_all rs c) c.
Proof.
  revert c. induction rs as [|r rs IH]; intros c; [apply same_request_refl|].
  rewrite reported_all_cons.
  eapply same_request_trans; [apply IH|apply reported_same_request].
Qed.

Lemma reported_all_same_results (rs : list Z) (c : AioCompletion) :
  same_results (reported_all rs c) (aggregated_all rs c).
Proof.
  revert c. induction rs as [|r rs IH]; intros c; [apply same_results_refl|].
  rewrite reported_all_cons, aggregated_all_cons.
  destruct (IH (reported r c)) as [Hr He].
  destruct (aggregated_all_same rs _ _ (proj2 (proj2 (reported_fields r c))))
    as [Hr' He'].
  split; congruence.
Qed.

Lemma reported_all_pending_count (rs : list Z) :
  forall c,
    Z.of_nat (length rs) <= pending_count c < 2 ^ 32 ->
    pending_count (reported_all rs c) = pending_count c - Z.of_nat (length rs).
Proof.
  induction rs as [|r rs IH]; intros c Hp; cbn [length] in *.
  - cbn. lia.
  - rewrite reported_all_cons.
    destruct (reported_fields r c) as (_ & Hrp & _).
    assert (Hdec : Int.to_uint32 (pending_count c - 1) = pending_count c - 1)
      by (apply IntFacts.to_uint32_id; lia).
    rewrite IH; rewrite Hrp, Hdec; lia.
Qed.

(** ** The exact effect of a sequence of reports *)

(** Fewer reports than declared: the count goes down, the results are
    aggregated, and each call only releases its reference. *)
Lemma deliver_partial (now : Z) (rs : list Z) :
  forall (c : AioCompletion) (tr : list event) (i : ImageCtx),
    ictx c = Some i ->
    Z.of_nat (length rs) < pending_count c < 2 ^ 32 ->
    deliver rs now {| comp := c; trace := tr |} =
    Ok (tt, {| comp := reported_all rs c;
               trace := tr ++ repeat EvPut (length rs) |}).
Proof.
  induction rs as [|r rs IH]; intros c tr i Hi Hp; cbn [length] in *.
  - cbn. rewrite app_nil_r. reflexivity.
  - cbn [deliver]. unfold bind.
    rewrite (complete_request_spec r now _ i) by (cbn; lia || exact Hi).
    cbn [comp trace].
    destruct (reported_fields r c) as (Hri & Hrp & _).
    assert (Hdec : Int.to_uint32 (pending_count c - 1) = pending_count c - 1)
      by (apply IntFacts.to_uint32_id; lia).
    unfold is_last. rewrite Hdec.
    destruct (Z.eqb_spec (pending_count c - 1) 0); [lia|].
    rewrite (IH _ _ i); [|rewrite Hri; exact Hi|rewrite Hrp, Hdec; lia].
    rewrite reported_all_cons, <- app_assoc. reflexivity.
Qed.

(** The declared number of reports: the last call runs the finishing
    sequence on the aggregate of all of them, then releases. *)
Lemma deliver_exact (now : Z) (rs : list Z) (r : Z)
    (c : AioCompletion) (tr : list event) (i : ImageCtx) :
  ictx c = Some i ->
  pending_count c = Z.of_nat (length (rs ++ [r])) ->
  Z.of_nat (length (rs ++ [r])) < 2 ^ 32 ->
  deliver (rs ++ [r]) now {| comp := c; trace := tr |} =
  Ok (tt,
      {| comp := completed (finalized (reported_all (rs ++ [r]) c));
         trace := tr ++ repeat EvPut (length rs) ++
                  finalize_events (reported_all (rs ++ [r]) c) ++
                  complete_events now
                    (finalized (reported_all (rs ++ [r]) c)) i ++
                  [EvPut] |}).
Proof.
  intros Hi Hp Hlt. rewrite length_app in Hp, Hlt. cbn [length] in Hp, Hlt.
  rewrite deliver_app. unfold bind.
  rewrite (deliver_partial now rs c tr i Hi) by lia.
  cbn [deliver]. unfold bind.
  destruct (reported_all_same_request rs c) as (_ & _ & Hri & _).
  pose proof (reported_all_pending_count rs c ltac:(lia)) as Hrp.
  rewrite (complete_request_spec r now _ i)
    by (cbn [comp]; first [rewrite Hri; exact Hi | lia]).
  cbn [comp trace]. unfold is_last. rewrite Hrp.
  replace (pending_count c - Z.of_nat (length rs) - 1) with 0 by lia.
  cbn. unfold reported_all. rewrite fold_left_app. cbn.
  rewrite <- !app_assoc. reflexivity.
Qed.

Lemma deliver_all (now : Z) (rs : list Z)
    (c : AioCompletion) (tr : list event) (i : ImageCtx) :
  ictx c = Some i ->
  rs <> [] ->
  pending_count c = Z.of_nat (length rs) ->
  Z.of_nat (length rs) < 2 ^ 32 ->
  deliver rs now {| comp := c; trace := tr |} =
  Ok (tt,
      {| comp := completed (finalized (reported_all rs c));
         trace := tr ++ repeat EvPut (length rs - 1) ++
                  finalize_events (reported_all rs c) ++
                  complete_events now (finalized (reported_all rs c)) i ++
                  [EvPut] |}).
Proof.
  intros Hi Hne Hp Hlt.
  destruct (exists_last Hne) as (rs' & r & ->).
  rewrite (deliver_exact now rs' r c tr i Hi Hp Hlt).
  rewrite length_app. cbn [length].
  replace (length rs' + 1 - 1)%nat with (length rs') by lia. reflexivity.
Qed.

(** ** Counting in traces *)

Lemma tally_app {A} (f : A -> bool) (a b : list A) :
  tally f (a ++ b) = tally f a + tally f b.
Proof. induction a as [|x a IH]; cbn; [reflexivity|]. rewrite IH. lia. Qed.

Lemma tally_repeat {A} (f : A -> bool) (x : A) (n : nat) :
  tally f (repeat x n) = if f x then Z.of_nat n else 0.
Proof.
  induction n as [|n IH]; cbn [repeat tally]; [destruct (f x); reflexivity|].
  rewrite IH. destruct (f x); lia.
Qed.

Lemma tincs_app (a b : list event) : tincs (a ++ b) = tincs a ++ tincs b.
Proof.
  induction a as [|e a IH]; [reflexivity|].
  destruct e; cbn; rewrite IH; reflexivity.
Qed.

Lemma tincs_repeat_put (n : nat) : tincs (repeat EvPut n) = [].
Proof. induction n as [|n IH]; [reflexivity|exact IH]. Qed.

Lemma callbacks_repeat_put (n : nat) : callbacks (repeat EvPut n) = [].
Proof. induction n as [|n IH]; [reflexivity|exact IH]. Qed.

Lemma tincs_finalize_events (c : AioCompletion) : tincs (finalize_events c) = [].
Proof. unfold finalize_events. destruct (_ && _); reflexivity. Qed.

Lemma tincs_complete_events (now : Z) (c : AioCompletion) (i : ImageCtx) :
  tincs (complete_events now c i) =
  (if perfcounter i then
     match latency_counter (aio_type c) with
     | Some ctr => [(ctr, now - start_time c)]
     | None => []
     end
   else []).
Proof.
  unfold complete_events, latency_events, teardown_events, callback_events,
    notify_events, settle_events.
  rewrite !tincs_app.
  destruct (perfcounter i); [destruct (latency_counter _)|];
    destruct (tears_down c); destruct (complete_cb c);
    destruct (ictx (in_callback c)); try destruct (_ && _);
    destruct (async_op_started c); reflexivity.
Qed.

(** ** Latency *)

(** X1: when the last of the declared reports arrives, the latency of the
    request, the clock at completion minus the start time, is recorded
    once, in the counter of the kind of the request; nothing is recorded
    for the kinds generic, open and close, nor when the context has no
    perf counters. *)
Theorem request_latency_recorded_once
    (now : Z) (rs : list Z) (c : AioCompletion) (tr : list event) (i : ImageCtx) :
  ictx c = Some i ->
  rs <> [] ->
  pending_count c = Z.of_nat (length rs) ->
  Z.of_nat (length rs) < 2 ^ 32 ->
  exists s',
    deliver rs now {| comp := c; trace := tr |} = Ok (tt, s') /\
    tincs (trace s') =
      tincs tr ++
      (if perfcounter i then
         match aio_type c with
         | AIO_TYPE_READ => [(l_librbd_rd_latency, now - start_time c)]
         | AIO_TYPE_WRITE => [(l_librbd_wr_latency, now - start_time c)]
         | AIO_TYPE_DISCARD => [(l_librbd_discard_latency, now - start_time c)]
         | AIO_TYPE_FLUSH => [(l_librbd_flush_latency, now - start_time c)]
         | AIO_TYPE_WRITESAME => [(l_librbd_ws_latency, now - start_time c)]
         | AIO_TYPE_COMPARE_AND_WRITE =>
             [(l_librbd_cmp_latency, now - start_time c)]
         | _ => []
         end
       else []).
Proof.
  intros Hi Hne Hp Hlt. eexists. split; [apply (deliver_all now rs c tr i); assumption|].
  cbn [trace].
  rewrite !tincs_app, tincs_repeat_put, tincs_finalize_events,
    tincs_complete_events.
  destruct (same_request_trans _ _ _ (finalized_same_request _)
              (reported_all_same_request rs c)) as (_ & Hty & _ & Hst & _).
  rewrite Hty, Hst. cbn. rewrite app_nil_r.
  destruct (perfcounter i); [|reflexivity].
  destruct (aio_type c); reflexivity.
Qed.

Lemma request_latency_recorded_once_witness :
  exists s',
    deliver [4; 6] 130 {| comp := issued AIO_TYPE_READ 2; trace := [] |}
      = Ok (tt, s') /\
    tincs (trace s') = [(l_librbd_rd_latency, 30)].
Proof.
  apply (request_latency_recorded_once 130 [4; 6] (issued AIO_TYPE_READ 2)
           [] an_image).
  - reflexivity.
  - discriminate.
  - reflexivity.
  - reflexivity.
Defined.

(** ** Event notification and wake-up *)

Lemma ictx_in_callback (c : AioCompletion) :
  ictx (in_callback c) = if tears_down c then None else ictx c.
Proof. unfold in_callback. destruct (tears_down c); reflexivity. Qed.

(** X2: [complete] pushes the completion on the list of completed requests
    and notifies the event socket exactly when the context is not torn
    down (the kind is not close, and not open with a negative result),
    event notification is enabled and the socket is valid.  It does so
    after the user callback and before waking the waiters; no other call
    of [complete] touches the socket. *)
Theorem complete_event_notification
    (now : Z) (c : AioCompletion) (tr : list event) (i : ImageCtx) :
  ictx c = Some i ->
  exists s' before after,
    complete now {| comp := c; trace := tr |} = Ok (tt, s') /\
    trace s' =
      tr ++ before ++
      (if negb (tears_down c) && event_notify c && event_socket_is_valid i
       then [EvCompletedReq i; EvSocketNotify i] else []) ++
      EvNotifyAll :: after /\
    callbacks before = (if complete_cb c then [in_callback c] else []) /\
    callbacks after = [] /\
    tally is_socket_event before = 0 /\
    tally is_socket_event after = 0.
Proof.
  intros Hi.
  exists {| comp := completed c; trace := tr ++ complete_events now c i |}.
  exists (latency_events now c i ++ teardown_events c i ++ callback_events c).
  exists (if async_op_started c then [EvFinishOp] else []).
  split; [apply complete_spec, Hi|].
  split.
  { cbn [trace]. unfold complete_events, notify_events, settle_events.
    rewrite ictx_in_callback, Hi.
    destruct (tears_down c); cbn [negb andb];
      rewrite <- ?app_assoc; [reflexivity|].
    destruct (event_notify c && event_socket_is_valid i); reflexivity. }
  unfold latency_events, teardown_events, callback_events.
  rewrite !callbacks_app, !tally_app.
  destruct (perfcounter i); [destruct (latency_counter _)|];
    destruct (tears_down c); destruct (complete_cb c);
    destruct (async_op_started c); repeat split.
Qed.

Lemma complete_event_notification_witness :
  exists s' before after,
    complete 130
      {| comp := set_rval (-2) (issued AIO_TYPE_OPEN 0); trace := [] |}
      = Ok (tt, s') /\
    trace s' =
      [] ++ before ++
      (if negb (tears_down (set_rval (-2) (issued AIO_TYPE_OPEN 0))) &&
          event_notify (set_rval (-2) (issued AIO_TYPE_OPEN 0)) &&
          event_socket_is_valid an_image
       then [EvCompletedReq an_image; EvSocketNotify an_image] else []) ++
      EvNotifyAll :: after /\
    callbacks before =
      (if complete_cb (set_rval (-2) (issued AIO_TYPE_OPEN 0))
       then [in_callback (set_rval (-2) (issued AIO_TYPE_OPEN 0))] else []) /\
    callbacks after = [] /\
    tally is_socket_event before = 0 /\
    tally is_socket_event after = 0.
Proof.
  apply (complete_event_notification 130
           (set_rval (-2) (issued AIO_TYPE_OPEN 0)) [] an_image).
  reflexivity.
Defined.

(** X3: [complete] leaves the completion in state Complete, with the
    result, the first-error slot and the count as they were; a waiter that
    then tests the state returns.  The waiters are woken after every other
    call of [complete] except [async_op.finish_op()], which is made last,
    and exactly when the operation was started, also when the context has
    been torn down. *)
Theorem complete_settles
    (now : Z) (c : AioCompletion) (tr : list event) (i : ImageCtx) :
  ictx c = Some i ->
  exists s' before,
    complete now {| comp := c; trace := tr |} = Ok (tt, s') /\
    trace s' =
      tr ++ before ++
      EvNotifyAll :: (if async_op_started c then [EvFinishOp] else []) /\
    tally is_finish_op before = 0 /\
    state (comp s') = AIO_STATE_COMPLETE /\
    rval (comp s') = rval c /\
    error_rval (comp s') = error_rval c /\
    pending_count (comp s') = pending_count c /\
    is_complete (comp s') = true /\
    wait_for_complete [comp s'] = Some 0.
Proof.
  intros Hi.
  exists {| comp := completed c; trace := tr ++ complete_events now c i |}.
  exists (latency_events now c i ++ teardown_events c i ++ callback_events c
          ++ notify_events c).
  split; [apply complete_spec, Hi|].
  split.
  { cbn [trace]. unfold complete_events, settle_events.
    rewrite <- !app_assoc. reflexivity. }
  split.
  { unfold latency_events, teardown_events, callback_events, notify_events.
    rewrite !tally_app.
    destruct (perfcounter i); [destruct (latency_counter _)|];
      destruct (tears_down c); destruct (complete_cb c);
      destruct (ictx (in_callback c)); try destruct (_ && _); reflexivity. }
  cbn [comp].
  destruct (completed_fields c) as (Hr & He & Hp & Hs & _).
  unfold is_complete. cbn [wait_for_complete]. rewrite Hs.
  repeat split; assumption.
Qed.

Lemma complete_settles_witness :
  exists s' before,
    complete 130
      {| comp := set_async_op_started true (issued AIO_TYPE_CLOSE 0);
         trace := [] |} = Ok (tt, s') /\
    trace s' = [] ++ before ++ EvNotifyAll :: [EvFinishOp] /\
    tally is_finish_op before = 0 /\
    state (comp s') = AIO_STATE_COMPLETE /\
    rval (comp s') = 0 /\
    error_rval (comp s') = 0 /\
    pending_count (comp s') = 0 /\
    is_complete (comp s') = true /\
    wait_for_complete [comp s'] = Some 0.
Proof.
  apply (complete_settles 130
           (set_async_op_started true (issued AIO_TYPE_CLOSE 0)) [] an_image).
  reflexivity.
Defined.

(** ** Assembly of the read result *)

Lemma finalized_aggregate_value (rs : list Z) (c : AioCompletion) :
  rval c = 0 -> error_rval c = 0 ->
  (forall e, first_error rs = Some e -> Int.INT_MIN <= e) ->
  (first_error rs = None -> byte_count rs <= Int.SSIZE_MAX) ->
  rval (finalized (aggregated_all rs c)) =
  match first_error rs with Some e => e | None => byte_count rs end.
Proof.
  intros Hr0 He0 Hmin Hsum. unfold finalized.
  destruct (first_error rs) as [e|] eqn:Hf.
  - rewrite (aggregated_all_first_error rs c e He0 Hf (Hmin e eq_refl)).
    apply find_some in Hf as [_ Herr]. apply is_error_spec in Herr.
    destruct (Z.ltb_spec e 0); [reflexivity|lia].
  - destruct (aggregated_all_no_error rs c He0 Hf) as [Hl Hv];
      [lia|rewrite Hr0; cbn; auto|].
    rewrite Hl. cbn. rewrite Hv, Hr0. reflexivity.
Qed.

Lemma tally_assemble_complete_events (now : Z) (c : AioCompletion) (i : ImageCtx) :
  tally is_assemble (complete_events now c i) = 0.
Proof.
  unfold complete_events, latency_events, teardown_events, callback_events,
    notify_events, settle_events.
  rewrite !tally_app.
  destruct (perfcounter i); [destruct (latency_counter _)|];
    destruct (tears_down c); destruct (complete_cb c);
    destruct (ictx (in_callback c)); try destruct (_ && _);
    destruct (async_op_started c); reflexivity.
Qed.

(** X4: the read result is assembled exactly when the request is a read
    and no error was reported (the first error, if any, fitting an int,
    and the byte count fitting the result): then once, by the last report,
    before the callback is invoked.  A read with an error, and a request
    of any other kind, never assembles. *)
Theorem read_result_assembled_on_success
    (now : Z) (rs : list Z) (c : AioCompletion) (tr : list event) (i : ImageCtx) :
  ictx c = Some i -> rval c = 0 -> error_rval c = 0 ->
  rs <> [] ->
  pending_count c = Z.of_nat (length rs) ->
  Z.of_nat (length rs) < 2 ^ 32 ->
  (forall e, first_error rs = Some e -> Int.INT_MIN <= e) ->
  (first_error rs = None -> byte_count rs <= Int.SSIZE_MAX) ->
  exists s' before after,
    deliver rs now {| comp := c; trace := tr |} = Ok (tt, s') /\
    trace s' =
      tr ++ before ++
      (if is_read (aio_type c) &&
          match first_error rs with Some _ => false | None => true end
       then [EvAssembleResult] else []) ++ after /\
    tally is_assemble before = 0 /\
    tally is_assemble after = 0 /\
    callbacks before = [] /\
    callbacks (trace s') =
      callbacks tr ++
      (if complete_cb c
       then [in_callback (finalized (reported_all rs c))] else []).
Proof.
  intros Hi Hr0 He0 Hne Hp Hlt Hmin Hsum.
  set (c' := reported_all rs c).
  destruct (reported_all_same_request rs c) as (_ & Hty & _ & _ & Hcb & _).
  fold c' in Hty, Hcb.
  assert (Hval : rval (finalized c') =
                 match first_error rs with Some e => e | None => byte_count rs end).
  { rewrite <- (finalized_aggregate_value rs c Hr0 He0 Hmin Hsum).
    apply finalized_same, reported_all_same_results. }
  eexists. exists (repeat EvPut (length rs - 1)).
  exists (complete_events now (finalized c') i ++ [EvPut]).
  split; [apply (deliver_all now rs c tr i); assumption|].
  cbn [trace]. fold c'.
  split.
  { f_equal. f_equal. f_equal. unfold finalize_events. rewrite Hval, Hty.
    destruct (first_error rs) as [e|] eqn:Hf.
    - apply find_some in Hf as [_ Herr]. apply is_error_spec in Herr.
      destruct (Z.leb_spec 0 e); [lia|]. cbn. rewrite andb_false_r. reflexivity.
    - pose proof (byte_count_nonneg rs).
      destruct (Z.leb_spec 0 (byte_count rs)); [|lia].
      cbn. rewrite andb_true_r. reflexivity. }
  split; [rewrite tally_repeat; reflexivity|].
  split; [rewrite tally_app, tally_assemble_complete_events; reflexivity|].
  split; [apply callbacks_repeat_put|].
  rewrite !callbacks_app, callbacks_repeat_put, callbacks_finalize_events,
    callbacks_complete_events.
  rewrite (proj2 (proj2 (proj2 (finalized_fields c')))), Hcb. cbn.
  rewrite app_nil_r. reflexivity.
Qed.

Lemma read_result_assembled_on_success_witness :
  exists s' before after,
    deliver [4; 6] 130 {| comp := issued AIO_TYPE_READ 2; trace := [] |}
      = Ok (tt, s') /\
    trace s' =
      [] ++ before ++
      (if is_read (aio_type (issued AIO_TYPE_READ 2)) &&
          match first_error [4; 6] with Some _ => false | None => true end
       then [EvAssembleResult] else []) ++ after /\
    tally is_assemble before = 0 /\
    tally is_assemble after = 0 /\
    callbacks before = [] /\
    callbacks (trace s') =
      callbacks [] ++
      (if complete_cb (issued AIO_TYPE_READ 2)
       then [in_callback (finalized (reported_all [4; 6]
                                       (issued AIO_TYPE_READ 2)))]
       else []).
Proof.
  apply (read_result_assembled_on_success 130 [4; 6] (issued AIO_TYPE_READ 2)
           [] an_image); try reflexivity.
  - discriminate.
  - discriminate.
  - intros _. vm_compute. discriminate.
Defined.

(** ** Failing a request *)

Lemma fail_spec (r now : Z) (c : AioCompletion) (tr : list event) (i : ImageCtx) :
  ictx c = Some i -> pending_count c = 0 ->
  fail r now {| comp := c; trace := tr |} =
  Ok (tt, {| comp := completed (set_rval r c);
             trace := tr ++ complete_events now (set_rval r c) i ++ [EvPut] |}).
Proof.
  intros Hi Hp. unfold fail, put, is_bound. unfold_monad.
  rewrite Hi, Hp. cbn.
  rewrite (complete_spec now (set_rval r c) tr i) by exact Hi.
  cbn. rewrite <- app_assoc. reflexivity.
Qed.

(** X5: [fail r] on a bound completion whose count is zero makes [r] the
    result, whatever the first-error slot holds, and completes the
    request: the callback, if registered, is invoked once and sees the
    result [r]; the read result is not assembled, also for a read; the
    context is torn down exactly for a close, and for an open with
    negative [r]; the last call releases the reference. *)
Theorem fail_completes_with_result
    (r now : Z) (c : AioCompletion) (tr : list event) (i : ImageCtx) :
  ictx c = Some i -> pending_count c = 0 ->
  exists s' evs,
    fail r now {| comp := c; trace := tr |} = Ok (tt, s') /\
    trace s' = tr ++ evs ++ [EvPut] /\
    get_return_value (comp s') = r /\
    error_rval (comp s') = error_rval c /\
    state (comp s') = AIO_STATE_COMPLETE /\
    ictx (comp s') =
      (if is_close (aio_type c) || is_open (aio_type c) && (r <? 0)
       then None else Some i) /\
    callbacks evs =
      (if complete_cb c then [in_callback (set_rval r c)] else []) /\
    Forall (fun seen => get_return_value seen = r) (callbacks evs) /\
    tally is_assemble evs = 0.
Proof.
  intros Hi Hp. eexists. exists (complete_events now (set_rval r c) i).
  split; [exact (fail_spec r now c tr i Hi Hp)|].
  split; [reflexivity|]. cbn [comp].
  destruct (completed_fields (set_rval r c)) as (Hr & He & _ & Hs & _).
  split; [exact Hr|]. split; [exact He|]. split; [exact Hs|].
  split.
  { unfold completed. cbn [ictx set_state]. rewrite ictx_in_callback.
    unfold tears_down. cbn. rewrite Hi. reflexivity. }
  rewrite callbacks_complete_events, tally_assemble_complete_events.
  cbn [complete_cb set_rval].
  split; [reflexivity|]. split; [|reflexivity].
  destruct (complete_cb c); repeat constructor.
  unfold in_callback. destruct (tears_down _); reflexivity.
Qed.

Lemma fail_completes_with_result_witness :
  exists s' evs,
    fail (- EIO) 130
      {| comp := set_error_rval (-7) (issued AIO_TYPE_READ 0); trace := [] |}
      = Ok (tt, s') /\
    trace s' = [] ++ evs ++ [EvPut] /\
    get_return_value (comp s') = - EIO /\
    error_rval (comp s') = -7 /\
    state (comp s') = AIO_STATE_COMPLETE /\
    ictx (comp s') = Some an_image /\
    callbacks evs =
      [in_callback (set_rval (- EIO)
                      (set_error_rval (-7) (issued AIO_TYPE_READ 0)))] /\
    Forall (fun seen => get_return_value seen = - EIO) (callbacks evs) /\
    tally is_assemble evs = 0.
Proof.
  apply (fail_completes_with_result (- EIO) 130
           (set_error_rval (-7) (issued AIO_TYPE_READ 0)) [] an_image);
    reflexivity.
Defined.

(** X6: [fail] aborts on a completion without context, and on one whose
    count is not zero; so [fail] after [set_request_count], whatever the
    count declared (zero declares one), aborts on the count. *)
Theorem fail_requires_zero_count :
  (forall r now s,
      ictx (comp s) = None -> fail r now s = Abort Assert_ictx_not_null) /\
  (forall r now s,
      is_bound (comp s) = true -> pending_count (comp s) <> 0 ->
      fail r now s = Abort Assert_pending_count_zero) /\
  (forall n r now c tr i,
      ictx c = Some i -> pending_count c = 0 ->
      (set_request_count n ;; fail r now) {| comp := c; trace := tr |}
      = Abort Assert_pending_count_zero).
Proof.
  assert (Hcount : forall r now s,
             is_bound (comp s) = true -> pending_count (comp s) <> 0 ->
             fail r now s = Abort Assert_pending_count_zero).
  { intros r now s Hb Hp. unfold fail. unfold_monad. rewrite Hb. cbn.
    destruct (Z.eqb_spec (pending_count (comp s)) 0); [contradiction|].
    reflexivity. }
  split; [|split; [exact Hcount|]].
  - intros r now s Hi. unfold fail, is_bound. unfold_monad. rewrite Hi.
    reflexivity.
  - intros n r now c tr i Hi Hp. unfold bind.
    destruct (set_request_count_ok n {| comp := c; trace := tr |} i Hi Hp)
      as [evs ->].
    apply Hcount.
    + unfold is_bound. cbn. rewrite Hi. reflexivity.
    + cbn. destruct (Z.eqb_spec n 0); lia.
Qed.

Lemma fail_requires_zero_count_witness :
  (set_request_count 0 ;; fail (- EIO) 130)
    {| comp := issued AIO_TYPE_WRITE 0; trace := [] |}
  = Abort Assert_pending_count_zero.
Proof.
  apply (proj2 (proj2 fail_requires_zero_count) 0 (- EIO) 130
           (issued AIO_TYPE_WRITE 0) [] an_image); reflexivity.
Defined.

(** X7: [fail] tests the count, not the state: after the declared reports
    have completed a request that keeps its context (neither open nor
    close), the count is zero again, and [fail r] completes the request a
    second time: the callback is invoked again, and the result becomes
    [r]. *)
Theorem fail_after_completion_completes_again
    (now now' r : Z) (rs : list Z) (c : AioCompletion) (tr : list event)
    (i : ImageCtx) :
  ictx c = Some i ->
  is_open (aio_type c) = false -> is_close (aio_type c) = false ->
  complete_cb c = true ->
  rs <> [] ->
  pending_count c = Z.of_nat (length rs) ->
  Z.of_nat (length rs) < 2 ^ 32 ->
  exists s',
    (deliver rs now ;; fail r now') {| comp := c; trace := tr |} = Ok (tt, s') /\
    length (callbacks (trace s')) = (length (callbacks tr) + 2)%nat /\
    get_return_value (comp s') = r.
Proof.
  intros Hi Hopen Hclose Hcb Hne Hp Hlt.
  set (c' := finalized (reported_all rs c)).
  destruct (same_request_trans _ _ _ (finalized_same_request _)
              (reported_all_same_request rs c))
    as (_ & Hty & Hi' & _ & Hcb' & _).
  fold c' in Hty, Hi', Hcb'.
  assert (Hkeep : tears_down c' = false).
  { unfold tears_down. rewrite Hty, Hopen, Hclose. reflexivity. }
  assert (Hcompleted : ictx (completed c') = Some i).
  { unfold completed. cbn [ictx set_state]. rewrite ictx_in_callback, Hkeep.
    congruence. }
  assert (Hzero : pending_count (completed c') = 0).
  { rewrite (proj1 (proj2 (proj2 (completed_fields c')))).
    unfold c'. rewrite (proj1 (proj2 (finalized_fields _))).
    rewrite reported_all_pending_count; lia. }
  unfold bind. rewrite (deliver_all now rs c tr i Hi Hne Hp Hlt). fold c'.
  rewrite (fail_spec r now' _ _ i Hcompleted Hzero).
  eexists. split; [reflexivity|]. cbn [comp trace].
  split; [|apply (completed_fields (set_rval r (completed c')))].
  rewrite !callbacks_app, callbacks_repeat_put, callbacks_finalize_events,
    !callbacks_complete_events.
  cbn [complete_cb set_rval].
  rewrite (proj2 (proj2 (proj2 (proj2 (completed_fields c'))))), Hcb', Hcb.
  cbn. rewrite !length_app. cbn. lia.
Qed.

Lemma fail_after_completion_completes_again_witness :
  exists s',
    (deliver [4; 6] 130 ;; fail (- EIO) 140)
      {| comp := issued AIO_TYPE_WRITE 2; trace := [] |} = Ok (tt, s') /\
    length (callbacks (trace s')) = (length (callbacks []) + 2)%nat /\
    get_return_value (comp s') = - EIO.
Proof.
  apply (fail_after_completion_completes_again 130 140 (- EIO) [4; 6]
           (issued AIO_TYPE_WRITE 2) [] an_image); try reflexivity.
  discriminate.
Defined.

(** ** Tracking the operation *)

Lemma start_op_spec (s : sys) (i : ImageCtx) :
  ictx (comp s) = Some i ->
  async_op_started (comp s) = false ->
  start_op s =
  Ok (tt,
      if is_open (aio_type (comp s)) || is_close (aio_type (comp s)) then s
      else {| comp := set_async_op_started true (comp s);
              trace := trace s ++ [EvStartOp i] |}).
Proof.
  intros Hi Hs. unfold start_op. unfold_monad. rewrite Hi.
  destruct (is_open _ || is_close _); [reflexivity|].
  cbn. rewrite Hs. reflexivity.
Qed.

(** X8: [start_op] aborts without context; for an open or a close it does
    nothing; for any other kind it starts the tracked operation on the
    context, once: a second [start_op] fails the assertion that the
    operation is not started. *)
Theorem start_op_tracks_once :
  (forall s, ictx (comp s) = None -> start_op s = Abort Assert_ictx_not_null) /\
  (forall s,
      is_bound (comp s) = true ->
      is_open (aio_type (comp s)) || is_close (aio_type (comp s)) = true ->
      start_op s = Ok (tt, s)) /\
  (forall s i,
      ictx (comp s) = Some i ->
      is_open (aio_type (comp s)) || is_close (aio_type (comp s)) = false ->
      async_op_started (comp s) = false ->
      start_op s =
      Ok (tt, {| comp := set_async_op_started true (comp s);
                 trace := trace s ++ [EvStartOp i] |})) /\
  (forall s,
      is_bound (comp s) = true ->
      is_open (aio_type (comp s)) || is_close (aio_type (comp s)) = false ->
      (start_op ;; start_op) s = Abort Assert_async_op_not_started).
Proof.
  split; [|split; [|split]].
  - intros s Hi. unfold start_op. unfold_monad. rewrite Hi. reflexivity.
  - intros s Hb Hk. unfold start_op, is_bound in *. unfold_monad.
    destruct (ictx (comp s)); [|discriminate]. rewrite Hk. reflexivity.
  - intros s i Hi Hk Hs. rewrite (start_op_spec s i Hi Hs), Hk. reflexivity.
  - intros s Hb Hk. unfold is_bound in Hb.
    destruct (ictx (comp s)) as [i|] eqn:Hi; [|discriminate].
    assert (Hstarted : forall s1 : sys,
               ictx (comp s1) = Some i ->
               aio_type (comp s1) = aio_type (comp s) ->
               async_op_started (comp s1) = true ->
               start_op s1 = Abort Assert_async_op_not_started).
    { intros s1 Hi1 Hty Hs1. unfold start_op. unfold_monad.
      rewrite Hi1, Hty, Hk. cbn. rewrite Hs1. reflexivity. }
    unfold bind. destruct (async_op_started (comp s)) eqn:Hs.
    + rewrite (Hstarted s Hi eq_refl Hs). reflexivity.
    + rewrite (start_op_spec s i Hi Hs), Hk. apply Hstarted; reflexivity || exact Hi.
Qed.

Lemma start_op_tracks_once_witness :
  (start_op ;; start_op) {| comp := issued AIO_TYPE_WRITE 2; trace := [] |}
  = Abort Assert_async_op_not_started.
Proof.
  apply (proj2 (proj2 (proj2 start_op_tracks_once))); reflexivity.
Defined.

Lemma tally_start_finish_complete_events (now : Z) (c : AioCompletion) (i : ImageCtx) :
  tally is_start_op (complete_events now c i) = 0 /\
  tally is_finish_op (complete_events now c i) =
    (if async_op_started c then 1 else 0).
Proof.
  unfold complete_events, latency_events, teardown_events, callback_events,
    notify_events, settle_events.
  rewrite !tally_app.
  destruct (perfcounter i); [destruct (latency_counter _)|];
    destruct (tears_down c); destruct (complete_cb c);
    destruct (ictx (in_callback c)); try destruct (_ && _);
    destruct (async_op_started c); split; reflexivity.
Qed.

(** X9: an operation started by [start_op] is finished by the completion
    of the request, exactly once: after [start_op] and the declared
    reports, the trace holds one start and one finish of the tracked
    operation for a kind other than open and close, and none of either
    for an open or a close; the finish is the last call before the final
    release. *)
Theorem started_op_finished_on_completion
    (now : Z) (rs : list Z) (c : AioCompletion) (tr : list event) (i : ImageCtx) :
  ictx c = Some i ->
  async_op_started c = false ->
  rs <> [] ->
  pending_count c = Z.of_nat (length rs) ->
  Z.of_nat (length rs) < 2 ^ 32 ->
  exists s' evs,
    (start_op ;; deliver rs now) {| comp := c; trace := tr |} = Ok (tt, s') /\
    trace s' =
      tr ++ evs ++
      (if is_open (aio_type c) || is_close (aio_type c)
       then [] else [EvFinishOp]) ++ [EvPut] /\
    tally is_finish_op evs = 0 /\
    tally is_start_op evs =
      (if is_open (aio_type c) || is_close (aio_type c) then 0 else 1) /\
    tally is_start_op (trace s') - tally is_start_op tr =
    tally is_finish_op (trace s') - tally is_finish_op tr.
Proof.
  intros Hi Hs Hne Hp Hlt.
  set (tracked := negb (is_open (aio_type c) || is_close (aio_type c))).
  set (c1 := if tracked then set_async_op_started true c else c).
  set (tr1 := if tracked then tr ++ [EvStartOp i] else tr).
  assert (Hstart : start_op {| comp := c; trace := tr |} =
                   Ok (tt, {| comp := c1; trace := tr1 |})).
  { rewrite (start_op_spec {| comp := c; trace := tr |} i Hi Hs).
    cbn [comp trace].
    unfold c1, tr1, tracked. destruct (is_open _ || is_close _); reflexivity. }
  assert (Hc1 : ictx c1 = Some i /\ pending_count c1 = pending_count c /\
                aio_type c1 = aio_type c /\ async_op_started c1 = tracked).
  { unfold c1. destruct tracked eqn:Ht; cbn; auto. }
  destruct Hc1 as (Hi1 & Hp1 & Hty1 & Hs1).
  set (c' := finalized (reported_all rs c1)).
  destruct (same_request_trans _ _ _ (finalized_same_request _)
              (reported_all_same_request rs c1))
    as (_ & _ & _ & _ & _ & _ & Hs').
  fold c' in Hs'. rewrite Hs1 in Hs'.
  unfold bind. rewrite Hstart.
  rewrite (deliver_all now rs c1 tr1 i Hi1 Hne) by (rewrite ?Hp1; assumption).
  fold c'.
  set (body := latency_events now c' i ++ teardown_events c' i ++
               callback_events c' ++ notify_events c' ++ [EvNotifyAll]).
  assert (Hbody : complete_events now c' i =
                  body ++ (if tracked then [EvFinishOp] else [])).
  { unfold complete_events, settle_events, body. rewrite Hs'.
    rewrite <- !app_assoc. reflexivity. }
  assert (Hbody0 : tally is_start_op body = 0 /\ tally is_finish_op body = 0).
  { unfold body, latency_events, teardown_events, callback_events,
      notify_events.
    rewrite !tally_app.
    destruct (perfcounter i); [destruct (latency_counter _)|];
      destruct (tears_down c'); destruct (complete_cb c');
      destruct (ictx (in_callback c')); try destruct (_ && _);
      split; reflexivity. }
  assert (Hfin0 : tally is_start_op (finalize_events (reported_all rs c1)) = 0 /\
                  tally is_finish_op (finalize_events (reported_all rs c1)) = 0).
  { unfold finalize_events. destruct (_ && _); split; reflexivity. }
  eexists.
  exists ((if tracked then [EvStartOp i] else []) ++
          repeat EvPut (length rs - 1) ++
          finalize_events (reported_all rs c1) ++ body).
  split; [reflexivity|]. cbn [trace]. rewrite Hbody.
  fold tracked.
  replace (if is_open (aio_type c) || is_close (aio_type c)
           then [] else [EvFinishOp])
    with (if tracked then [EvFinishOp] else [])
    by (unfold tracked; destruct (is_open _ || is_close _); reflexivity).
  replace (if is_open (aio_type c) || is_close (aio_type c) then 0 else 1)
    with (if tracked then 1 else 0)
    by (unfold tracked; destruct (is_open _ || is_close _); reflexivity).
  split.
  { unfold tr1. destruct tracked; rewrite <- ?app_assoc; reflexivity. }
  rewrite !tally_app, !tally_repeat.
  destruct Hbody0 as [-> ->]. destruct Hfin0 as [-> ->]. cbn [is_start_op is_finish_op].
  unfold tr1. destruct tracked; rewrite ?tally_app; cbn; repeat split; lia.
Qed.

Lemma started_op_finished_on_completion_witness :
  exists s' evs,
    (start_op ;; deliver [4; 6] 130)
      {| comp := issued AIO_TYPE_WRITE 2; trace := [] |} = Ok (tt, s') /\
    trace s' =
      [] ++ evs ++
      (if is_open (aio_type (issued AIO_TYPE_WRITE 2)) ||
          is_close (aio_type (issued AIO_TYPE_WRITE 2))
       then [] else [EvFinishOp]) ++ [EvPut] /\
    tally is_finish_op evs = 0 /\
    tally is_start_op evs =
      (if is_open (aio_type (issued AIO_TYPE_WRITE 2)) ||
          is_close (aio_type (issued AIO_TYPE_WRITE 2)) then 0 else 1) /\
    tally is_start_op (trace s') - tally is_start_op [] =
    tally is_finish_op (trace s') - tally is_finish_op [].
Proof.
  apply (started_op_finished_on_completion 130 [4; 6]
           (issued AIO_TYPE_WRITE 2) [] an_image); try reflexivity.
  discriminate.
Defined.

(** ** Before the last report *)

Lemma aggregated_all_rval (rs : list Z) :
  forall c,
    0 <= rval c -> rval c + byte_count rs <= Int.SSIZE_MAX ->
    rval (aggregated_all rs c) = rval c + byte_count rs.
Proof.
  induction rs as [|r rs IH]; intros c Hr Hsum; cbn [byte_count] in *.
  - cbn. lia.
  - rewrite aggregated_all_cons.
    pose proof (byte_count_nonneg rs) as Hnn.
    assert (Hstep : rval (aggregated r c) = rval c + (if r >? 0 then r else 0)).
    { unfold aggregated, compare_exchange_error_rval.
      destruct (Z.gtb_spec r 0).
      - cbn. apply IntFacts.to_ssize_id.
        unfold Int.SSIZE_MIN, Int.SSIZE_MAX in *. lia.
      - destruct (negb _); [|lia].
        destruct (error_rval c =? 0); cbn; lia. }
    rewrite IH; rewrite Hstep; destruct (Z.gtb_spec r 0); lia.
Qed.

(** X10: as long as fewer reports have arrived than were declared, nothing
    but the count and the results changes: the state is as before (so
    [is_complete] answers as before, and a waiter of a request that is not
    Complete stays blocked), the context is kept, the count is the
    declared count minus the number of reports, and the only calls made
    are the releases, one per report: no callback, no finalization. *)
Theorem no_completion_before_last_report
    (now : Z) (rs : list Z) (c : AioCompletion) (tr : list event) (i : ImageCtx) :
  ictx c = Some i ->
  Z.of_nat (length rs) < pending_count c < 2 ^ 32 ->
  exists s',
    deliver rs now {| comp := c; trace := tr |} = Ok (tt, s') /\
    trace s' = tr ++ repeat EvPut (length rs) /\
    callbacks (trace s') = callbacks tr /\
    pending_count (comp s') = pending_count c - Z.of_nat (length rs) /\
    state (comp s') = state c /\
    ictx (comp s') = Some i /\
    is_complete (comp s') = is_complete c /\
    (state c <> AIO_STATE_COMPLETE -> wait_for_complete [comp s'] = None).
Proof.
  intros Hi Hp. eexists. split; [apply (deliver_partial now rs c tr i Hi Hp)|].
  cbn [comp trace].
  destruct (reported_all_same_request rs c) as (Hs & _ & Hi' & _).
  split; [reflexivity|].
  split; [rewrite callbacks_app, callbacks_repeat_put, app_nil_r; reflexivity|].
  split; [apply reported_all_pending_count; lia|].
  split; [exact Hs|]. split; [congruence|].
  split; [unfold is_complete; rewrite Hs; reflexivity|].
  intros Hns. cbn. rewrite Hs. destruct (state c); congruence.
Qed.

Lemma no_completion_before_last_report_witness :
  exists s',
    deliver [4; - EIO] 130 {| comp := issued AIO_TYPE_WRITE 3; trace := [] |}
      = Ok (tt, s') /\
    trace s' = [] ++ repeat EvPut (length [4; - EIO]) /\
    callbacks (trace s') = callbacks [] /\
    pending_count (comp s') =
      pending_count (issued AIO_TYPE_WRITE 3) - Z.of_nat (length [4; - EIO]) /\
    state (comp s') = state (issued AIO_TYPE_WRITE 3) /\
    ictx (comp s') = Some an_image /\
    is_complete (comp s') = is_complete (issued AIO_TYPE_WRITE 3) /\
    (state (issued AIO_TYPE_WRITE 3) <> AIO_STATE_COMPLETE ->
     wait_for_complete [comp s'] = None).
Proof.
  apply (no_completion_before_last_report 130 [4; - EIO]
           (issued AIO_TYPE_WRITE 3) [] an_image).
  - reflexivity.
  - cbn. lia.
Defined.

(** X11: before the last report, [get_return_value] gives the bytes
    counted so far, also when an error has been reported: the error sits
    in the first-error slot and reaches the result only in the finishing
    sequence. *)
Theorem result_before_completion
    (now : Z) (rs : list Z) (c : AioCompletion) (tr : list event) (i : ImageCtx) :
  ictx c = Some i -> rval c = 0 -> error_rval c = 0 ->
  Z.of_nat (length rs) < pending_count c < 2 ^ 32 ->
  byte_count rs <= Int.SSIZE_MAX ->
  (forall e, first_error rs = Some e -> Int.INT_MIN <= e) ->
  exists s',
    deliver rs now {| comp := c; trace := tr |} = Ok (tt, s') /\
    get_return_value (comp s') = byte_count rs /\
    error_rval (comp s') =
      match first_error rs with Some e => e | None => 0 end.
Proof.
  intros Hi Hr0 He0 Hp Hsum Hmin.
  eexists. split; [apply (deliver_partial now rs c tr i Hi Hp)|].
  cbn [comp]. unfold get_return_value.
  destruct (reported_all_same_results rs c) as [-> ->].
  split.
  - rewrite aggregated_all_rval; rewrite Hr0; lia.
  - destruct (first_error rs) as [e|] eqn:Hf.
    + apply (aggregated_all_first_error rs c e He0 Hf (Hmin e eq_refl)).
    + apply (aggregated_all_no_error rs c He0 Hf); rewrite Hr0; lia.
Qed.

Lemma result_before_completion_witness :
  exists s',
    deliver [4; - EIO] 130 {| comp := issued AIO_TYPE_WRITE 3; trace := [] |}
      = Ok (tt, s') /\
    get_return_value (comp s') = byte_count [4; - EIO] /\
    error_rval (comp s') =
      match first_error [4; - EIO] with Some e => e | None => 0 end.
Proof.
  apply (result_before_completion 130 [4; - EIO]
           (issued AIO_TYPE_WRITE 3) [] an_image); try reflexivity.
  - cbn. lia.
  - vm_compute. discriminate.
  - intros e [= <-]. vm_compute. discriminate.
Defined.

(** ** The release *)

Lemma tally_put_finalize_events (c : AioCompletion) :
  tally is_put (finalize_events c) = 0.
Proof. unfold finalize_events. destruct (_ && _); reflexivity. Qed.

Lemma tally_put_complete_events (now : Z) (c : AioCompletion) (i : ImageCtx) :
  tally is_put (complete_events now c i) = 0.
Proof.
  unfold complete_events, latency_events, teardown_events, callback_events,
    notify_events, settle_events.
  rewrite !tally_app.
  destruct (perfcounter i); [destruct (latency_counter _)|];
    destruct (tears_down c); destruct (complete_cb c);
    destruct (ictx (in_callback c)); try destruct (_ && _);
    destruct (async_op_started c); reflexivity.
Qed.

(** X12: a call of [complete_request] that returns releases one reference,
    and the release is its last call: whatever else it did (the finishing
    sequence, for the last report) comes before. *)
Theorem complete_request_releases_last (r now : Z) (s s' : sys) :
  complete_request r now s = Ok (tt, s') ->
  exists evs,
    trace s' = trace s ++ evs ++ [EvPut] /\
    tally is_put evs = 0 /\
    (is_last (comp s) = false -> evs = []).
Proof.
  intros Hrun.
  destruct (Z_le_gt_dec (pending_count (comp s)) 0) as [H0|H0].
  { rewrite complete_request_over_reported in Hrun by exact H0. discriminate. }
  destruct (ictx (comp s)) as [i|] eqn:Hi.
  - rewrite (complete_request_spec r now s i Hi) in Hrun by lia.
    injection Hrun as <-. destruct (is_last (comp s)); cbn [trace].
    + exists (finalize_events (reported r (comp s)) ++
              complete_events now (finalized (reported r (comp s))) i).
      split; [rewrite <- app_assoc; reflexivity|].
      split; [|discriminate].
      rewrite tally_app, tally_put_finalize_events, tally_put_complete_events.
      reflexivity.
    + exists []. repeat split.
  - unfold complete_request, fetch_sub_pending_count in Hrun. unfold_monad.
    destruct (pending_count (comp s) >? 0); [|discriminate].
    unfold is_bound in Hrun. cbn in Hrun. rewrite Hi in Hrun. discriminate.
Qed.

Lemma complete_request_releases_last_witness :
  exists evs,
    trace {| comp := reported 4 (issued AIO_TYPE_WRITE 2); trace := [EvPut] |}
      = trace {| comp := issued AIO_TYPE_WRITE 2; trace := [] |} ++ evs ++ [EvPut] /\
    tally is_put evs = 0 /\
    (is_last (comp {| comp := issued AIO_TYPE_WRITE 2; trace := [] |}) = false ->
     evs = []).
Proof.
  apply (complete_request_releases_last 4 130
           {| comp := issued AIO_TYPE_WRITE 2; trace := [] |}).
  vm_compute. reflexivity.
Defined.

(** ** A request with one report *)

Lemma deliver_single (r now : Z) (s : sys) :
  deliver [r] now s = complete_request r now s.
Proof.
  cbn [deliver]. unfold bind, ret.
  destruct (complete_request r now s) as [[[] s']|w]; reflexivity.
Qed.

(** X13: a request declared with no sub-operation, or with one, is
    completed by its first report, and its result is that report (which
    fits an int if negative, and the result if positive), except that the
    benign duplicate -EEXIST gives the result 0: it is reported as
    success. *)
Theorem single_report_result
    (n r now : Z) (c : AioCompletion) (tr : list event) (i : ImageCtx) :
  ictx c = Some i -> rval c = 0 -> error_rval c = 0 -> pending_count c = 0 ->
  n = 0 \/ n = 1 ->
  Int.INT_MIN <= r <= Int.SSIZE_MAX ->
  exists s',
    (set_request_count n ;; complete_request r now)
      {| comp := c; trace := tr |} = Ok (tt, s') /\
    state (comp s') = AIO_STATE_COMPLETE /\
    get_return_value (comp s') = (if r =? - EEXIST then 0 else r).
Proof.
  intros Hi Hr0 He0 Hp Hn Hr. unfold bind.
  destruct (set_request_count_ok n {| comp := c; trace := tr |} i Hi Hp)
    as [evs ->].
  replace (if n =? 0 then 1 else n) with 1 by (destruct Hn; subst; reflexivity).
  rewrite <- deliver_single. cbn [comp trace].
  destruct (deliver_final_result now [r] (set_pending_count 1 c) (tr ++ evs) i)
    as (s' & Hrun & Hs & _ & Hv); try assumption; try reflexivity.
  - discriminate.
  - unfold first_error. cbn. destruct (is_error r); [|discriminate].
    intros e [= <-]. lia.
  - intros _. cbn [byte_count]. unfold Int.SSIZE_MAX in *.
    destruct (Z.gtb_spec r 0); lia.
  - exists s'. split; [exact Hrun|]. split; [exact Hs|]. rewrite Hv.
    unfold first_error. cbn. destruct (is_error r) eqn:Herr.
    + apply is_error_spec in Herr.
      destruct (Z.eqb_spec r (- EEXIST)); [lia|reflexivity].
    + destruct (Z.eqb_spec r (- EEXIST)) as [->|Hne]; [reflexivity|].
      destruct (Z.gtb_spec r 0); [lia|].
      destruct (Z.eq_dec r 0) as [->|Hnz]; [reflexivity|].
      assert (is_error r = true) by (apply is_error_spec; lia). congruence.
Qed.

Lemma single_report_result_witness :
  exists s',
    (set_request_count 0 ;; complete_request (- EEXIST) 130)
      {| comp := issued AIO_TYPE_WRITE 0; trace := [] |} = Ok (tt, s') /\
    state (comp s') = AIO_STATE_COMPLETE /\
    get_return_value (comp s') = (if - EEXIST =? - EEXIST then 0 else - EEXIST).
Proof.
  apply (single_report_result 0 (- EEXIST) 130 (issued AIO_TYPE_WRITE 0)
           [] an_image); try reflexivity.
  - left. reflexivity.
  - vm_compute. split; discriminate.
Defined.

(** ** After the context is torn down *)

Lemma complete_request_unbound (r now : Z) (s : sys) :
  ictx (comp s) = None -> exists w, complete_request r now s = Abort w.
Proof.
  destruct s as [[st rv er pc ty ic stt cb en ao] tr]. cbn. intros ->.
  unfold complete_request, fetch_sub_pending_count, is_bound. unfold_monad.
  destruct (pc >? 0); eexists; reflexivity.
Qed.

(** X14: once [complete] has torn down the context (a close, or an open
    with negative result), the completion is unbound: [set_request_count],
    [start_op], [fail], [finalize] and [complete] fail the assertion on
    the context, and [complete_request] aborts as well. *)
Theorem torn_down_completion_rejects_calls
    (now now' n r : Z) (c : AioCompletion) (tr : list event) (i : ImageCtx) :
  ictx c = Some i ->
  aio_type c = AIO_TYPE_CLOSE \/ (aio_type c = AIO_TYPE_OPEN /\ rval c < 0) ->
  exists s',
    complete now {| comp := c; trace := tr |} = Ok (tt, s') /\
    tally is_delete (trace s') = tally is_delete tr + 1 /\
    set_request_count n s' = Abort Assert_ictx_not_null /\
    start_op s' = Abort Assert_ictx_not_null /\
    fail r now' s' = Abort Assert_ictx_not_null /\
    finalize s' = Abort Assert_ictx_not_null /\
    complete now' s' = Abort Assert_ictx_not_null /\
    exists w, complete_request r now' s' = Abort w.
Proof.
  intros Hi Hkind.
  assert (Htd : tears_down c = true).
  { unfold tears_down. destruct Hkind as [H|[H Hr]]; rewrite H; cbn;
      [reflexivity|]. apply Z.ltb_lt, Hr. }
  set (s' := {| comp := completed c; trace := tr ++ complete_events now c i |}).
  assert (Hnull : ictx (comp s') = None).
  { unfold s', completed. cbn [comp ictx set_state].
    rewrite ictx_in_callback, Htd. reflexivity. }
  exists s'. split; [apply complete_spec, Hi|].
  split.
  { cbn [s' trace]. rewrite tally_app. f_equal.
    unfold complete_events, latency_events, teardown_events, callback_events,
      notify_events, settle_events.
    rewrite !tally_app, Htd.
    destruct (perfcounter i); [destruct (latency_counter _)|];
      destruct (complete_cb c);
      destruct (ictx (in_callback c)); try destruct (_ && _);
      destruct (async_op_started c); reflexivity. }
  split; [unfold set_request_count; unfold_monad; rewrite Hnull; reflexivity|].
  split; [unfold start_op; unfold_monad; rewrite Hnull; reflexivity|].
  split; [unfold fail, is_bound; unfold_monad; rewrite Hnull; reflexivity|].
  split; [apply finalize_unbound; unfold is_bound; rewrite Hnull; reflexivity|].
  split; [apply complete_unbound, Hnull|].
  apply complete_request_unbound, Hnull.
Qed.

Lemma torn_down_completion_rejects_calls_witness :
  exists s',
    complete 130 {| comp := issued AIO_TYPE_CLOSE 0; trace := [] |}
      = Ok (tt, s') /\
    tally is_delete (trace s') = tally is_delete [] + 1 /\
    set_request_count 3 s' = Abort Assert_ictx_not_null /\
    start_op s' = Abort Assert_ictx_not_null /\
    fail (- EIO) 140 s' = Abort Assert_ictx_not_null /\
    finalize s' = Abort Assert_ictx_not_null /\
    complete 140 s' = Abort Assert_ictx_not_null /\
    exists w, complete_request (- EIO) 140 s' = Abort w.
Proof.
  apply (torn_down_completion_rejects_calls 130 140 3 (- EIO)
           (issued AIO_TYPE_CLOSE 0) [] an_image).
  - reflexivity.
  - left. reflexivity.
Defined.

(** ** Results under concurrent reports *)

Lemma total_insert {A} (f : A -> Z) (l : list A) (i : nat) (x y : A) :
  l !! i = Some x ->
  total f (<[i := y]> l) = total f l - f x + f y.
Proof.
  revert i. induction l as [|z l IH]; intros i Hl; [discriminate|].
  destruct i as [|i].
  - injection Hl as ->. change (<[0%nat := y]> (x :: l)) with (y :: l).
    cbn [total]. lia.
  - change ((z :: l) !! S i) with (l !! i) in Hl.
    change (<[S i := y]> (z :: l)) with (z :: <[i := y]> l).
    cbn [total]. rewrite (IH i Hl). lia.
Qed.

Lemma map_report_insert (l : list thread) (i : nat) (x y : thread) :
  l !! i = Some x -> report y = report x ->
  map report (<[i := y]> l) = map report l.
Proof.
  revert i. induction l as [|z l IH]; intros i Hl Hr; [discriminate|].
  destruct i as [|i].
  - injection Hl as ->. change (<[0%nat := y]> (x :: l)) with (y :: l).
    cbn. rewrite Hr. reflexivity.
  - change ((z :: l) !! S i) with (l !! i) in Hl.
    change (<[S i := y]> (z :: l)) with (z :: <[i := y]> l).
    cbn. rewrite (IH i Hl Hr). reflexivity.
Qed.

Lemma lookup_report_in (l : list thread) (i : nat) (t : thread) :
  l !! i = Some t -> In (report t) (map report l).
Proof.
  revert i. induction l as [|z l IH]; intros i Hl; [discriminate|].
  destruct i as [|i].
  - injection Hl as ->. left. reflexivity.
  - right. apply (IH i). exact Hl.
Qed.

Lemma map_report_call (rs : list Z) : map report (map call rs) = rs.
Proof.
  induction rs as [|r rs IH]; [reflexivity|]. cbn. rewrite IH. reflexivity.
Qed.

Lemma to_ssize_add (a b : Z) :
  Int.to_ssize (Int.to_ssize a + b) = Int.to_ssize (a + b).
Proof.
  unfold Int.to_ssize. f_equal.
  replace ((a + 2 ^ 63) mod 2 ^ 64 - 2 ^ 63 + b + 2 ^ 63)
    with ((a + 2 ^ 63) mod 2 ^ 64 + b) by lia.
  rewrite Zplus_mod_idemp_l. f_equal. lia.
Qed.

(** What one step of a thread does to the results and to the state. *)
Lemma thread_step_results (now : Z) (t t' : thread) (s s' : sys) :
  thread_step now t s = Ok (t', s') ->
  report t' = report t /\
  match at_point t with
  | AtAggregate =>
      rval (comp s') = rval (aggregated (report t) (comp s)) /\
      error_rval (comp s') = error_rval (aggregated (report t) (comp s)) /\
      state (comp s') = state (comp s)
  | AtFinalize =>
      rval (comp s') = rval (finalized (comp s)) /\
      error_rval (comp s') = error_rval (comp s) /\
      state (comp s') = state (comp s)
  | AtComplete =>
      rval (comp s') = rval (comp s) /\
      error_rval (comp s') = error_rval (comp s) /\
      state (comp s') = AIO_STATE_COMPLETE
  | _ =>
      rval (comp s') = rval (comp s) /\
      error_rval (comp s') = error_rval (comp s) /\
      state (comp s') = state (comp s)
  end.
Proof.
  unfold thread_step. destruct s as [c tr]. destruct (at_point t) eqn:Hat.
  - unfold fetch_sub_pending_count. unfold_monad.
    destruct (pending_count c >? 0); [|discriminate].
    intros [= <- <-]. cbn. auto.
  - unfold_monad. destruct (is_bound c); [|discriminate].
    intros [= <- <-]. cbn. auto.
  - unfold aggregate. unfold_monad. intros [= <- <-]. cbn [comp goto report].
    destruct (aggregated_fields (report t) c) as (_ & _ & Hs & _). auto.
  - unfold bind, ret. destruct (is_bound c) eqn:Hb.
    + rewrite finalize_spec by exact Hb. intros [= <- <-].
      cbn [comp goto report].
      destruct (finalized_fields c) as (_ & _ & He & _).
      destruct (finalized_same_request c) as (Hs & _). auto.
    + rewrite finalize_unbound by exact Hb. discriminate.
  - unfold bind, ret. destruct (ictx c) as [i|] eqn:Hi.
    + rewrite (complete_spec now c tr i Hi). intros [= <- <-].
      cbn [comp goto report].
      destruct (completed_fields c) as (Hr & He & _ & Hs & _). auto.
    + rewrite complete_unbound by exact Hi. discriminate.
  - unfold put. unfold_monad. intros [= <- <-]. cbn. auto.
  - unfold ret. intros [= <- <-]. auto.
Qed.

Lemma pool_step_inv (now : Z) (i : nat) (p p' : pool) :
  pool_step now i p = Ok p' ->
  p' = p \/
  exists t t' s',
    threads p !! i = Some t /\
    thread_step now t (shared p) = Ok (t', s') /\
    p' = {| shared := s'; threads := <[i := t']> (threads p) |}.
Proof.
  unfold pool_step. destruct (threads p !! i) as [t|] eqn:Hl.
  - destruct (thread_step now t (shared p)) as [[t' s']|w] eqn:Hts;
      [|discriminate].
    intros [= <-]. right. exists t, t', s'. auto.
  - intros [= <-]. left. reflexivity.
Qed.

Lemma aggregated_error_rval_cases (r : Z) (c : AioCompletion) :
  error_rval (aggregated r c) = error_rval c \/
  (r <= 0 /\ r <> - EEXIST /\ error_rval (aggregated r c) = Int.to_int r).
Proof.
  unfold aggregated, compare_exchange_error_rval.
  destruct (Z.gtb_spec r 0); [left; reflexivity|].
  destruct (Z.eqb_spec r (- EEXIST)); cbn [negb]; [left; reflexivity|].
  destruct (error_rval c =? 0); [right; cbn; auto|left; reflexivity].
Qed.

Lemma pool_step_error_latched (now : Z) (i : nat) (p p' : pool) :
  error_rval (comp (shared p)) <> 0 ->
  pool_step now i p = Ok p' ->
  error_rval (comp (shared p')) = error_rval (comp (shared p)).
Proof.
  intros Hne Hstep.
  destruct (pool_step_inv now i p p' Hstep) as [->|(t & t' & s' & Hl & Hts & ->)];
    [reflexivity|].
  destruct (thread_step_results now t t' (shared p) s' Hts) as [_ Hres].
  cbn [shared].
  destruct (at_point t); try (destruct Hres as (_ & -> & _); reflexivity).
  destruct Hres as (_ & -> & _). apply error_latched_stays, Hne.
Qed.

Lemma run_error_latched (now : Z) (schedule : list nat) :
  forall p p',
    error_rval (comp (shared p)) <> 0 ->
    run now schedule p = Ok p' ->
    error_rval (comp (shared p')) = error_rval (comp (shared p)).
Proof.
  induction schedule as [|i later IH]; intros p p' Hne Hrun; cbn in Hrun.
  - injection Hrun as <-. reflexivity.
  - destruct (pool_step now i p) as [p1|w] eqn:Hstep; [|discriminate].
    pose proof (pool_step_error_latched now i p p1 Hne Hstep) as H1.
    rewrite <- H1. apply IH; [rewrite H1; exact Hne|exact Hrun].
Qed.

Lemma pool_step_error_from_report (now : Z) (i : nat) (p p' : pool) :
  error_from_report p ->
  pool_step now i p = Ok p' ->
  error_from_report p' /\ map report (threads p') = map report (threads p).
Proof.
  intros Hinv Hstep.
  destruct (pool_step_inv now i p p' Hstep) as [->|(t & t' & s' & Hl & Hts & ->)];
    [auto|].
  destruct (thread_step_results now t t' (shared p) s' Hts) as [Hrep Hres].
  pose proof (map_report_insert _ i t t' Hl Hrep) as Hmap.
  split; [|exact Hmap].
  unfold error_from_report in *. cbn [shared threads]. rewrite Hmap.
  assert (Hkeep : error_rval (comp s') = error_rval (comp (shared p)) ->
                  error_rval (comp s') = 0 \/
                  exists r, In r (map report (threads p)) /\ r <= 0 /\
                            r <> - EEXIST /\ error_rval (comp s') = Int.to_int r).
  { intros ->. exact Hinv. }
  destruct (at_point t); try (apply Hkeep; apply Hres).
  destruct Hres as (_ & He & _).
  destruct (aggregated_error_rval_cases (report t) (comp (shared p)))
    as [Hsame|(Hle & Hns & Hnew)].
  - apply Hkeep. congruence.
  - right. exists (report t).
    split; [apply (lookup_report_in _ i), Hl|]. repeat split; congruence.
Qed.

(** X15: first one wins, under every schedule.  Started with an empty
    first-error slot, in every state the pool reaches the slot is empty or
    holds the report of one of the threads, a report that is not positive
    and not -EEXIST, converted to int; and once the slot is not zero, no
    further step of any thread changes it. *)
Theorem first_error_wins_under_any_schedule
    (now : Z) (schedule : list nat) (rs : list Z) (s : sys) (p : pool) :
  error_rval (comp s) = 0 ->
  run now schedule (spawn s rs) = Ok p ->
  (error_rval (comp (shared p)) = 0 \/
   exists r, In r rs /\ r <= 0 /\ r <> - EEXIST /\
             error_rval (comp (shared p)) = Int.to_int r) /\
  (forall later p',
      error_rval (comp (shared p)) <> 0 ->
      run now later p = Ok p' ->
      error_rval (comp (shared p')) = error_rval (comp (shared p))).
Proof.
  intros He Hrun. split; [|intros later p'; apply run_error_latched].
  assert (Hgen : forall schedule p0 p1,
             error_from_report p0 ->
             run now schedule p0 = Ok p1 ->
             error_from_report p1 /\
             map report (threads p1) = map report (threads p0)).
  { clear. intros schedule.
    induction schedule as [|i later IH]; intros p0 p1 Hinv Hrun; cbn in Hrun.
    - injection Hrun as <-. auto.
    - destruct (pool_step now i p0) as [p2|w] eqn:Hstep; [|discriminate].
      destruct (pool_step_error_from_report now i p0 p2 Hinv Hstep) as [H2 Hm2].
      destruct (IH p2 p1 H2 Hrun) as [H1 Hm1]. split; [exact H1|congruence]. }
  destruct (Hgen schedule (spawn s rs) p) as [Hinv Hmap];
    [left; exact He|exact Hrun|].
  cbn [spawn threads] in Hmap. rewrite map_report_call in Hmap.
  unfold error_from_report in Hinv. rewrite Hmap in Hinv. exact Hinv.
Qed.

Lemma first_error_wins_under_any_schedule_witness :
  exists p,
    run 130 [1; 0; 0; 0; 1; 1; 1; 0]%nat
      (spawn {| comp := issued AIO_TYPE_WRITE 2; trace := [] |} [- EIO; -7])
      = Ok p /\
    (error_rval (comp (shared p)) = 0 \/
     exists r, In r [- EIO; -7] /\ r <= 0 /\ r <> - EEXIST /\
               error_rval (comp (shared p)) = Int.to_int r).
Proof.
  eexists. split; [vm_compute; reflexivity|].
  apply (proj1 (first_error_wins_under_any_schedule 130
                  [1; 0; 0; 0; 1; 1; 1; 0]%nat [- EIO; -7]
                  {| comp := issued AIO_TYPE_WRITE 2; trace := [] |} _
                  eq_refl ltac:(vm_compute; reflexivity))).
Defined.

Lemma contribution_at (t : thread) (pt : program_point) :
  at_point t = pt ->
  contribution t =
  match pt with
  | AtDecrement | AtAssertCtx | AtAggregate => 0
  | _ => if report t >? 0 then report t else 0
  end.
Proof. intros <-. reflexivity. Qed.

Lemma finalized_no_error (c : AioCompletion) :
  error_rval c = 0 -> rval (finalized c) = rval c.
Proof. intros H. unfold finalized. rewrite H. reflexivity. Qed.

Lemma pool_step_results_invariant
    (r0 now : Z) (rs : list Z) (i : nat) (p p' : pool) :
  Forall (fun r => is_error r = false) rs ->
  results_invariant r0 rs p ->
  pool_step now i p = Ok p' ->
  results_invariant r0 rs p'.
Proof.
  intros Hrs [Hrep Herr Hrv] Hstep.
  destruct (pool_step_inv now i p p' Hstep) as [->|(t & t' & s' & Hl & Hts & ->)];
    [constructor; assumption|].
  destruct (thread_step_results now t t' (shared p) s' Hts) as [Hrt Hres].
  destruct (thread_step_effect now t t' (shared p) s' Hts) as [_ Heff].
  assert (Hnoerr : is_error (report t) = false).
  { rewrite List.Forall_forall in Hrs. apply Hrs. rewrite <- Hrep.
    apply (lookup_report_in _ i), Hl. }
  constructor; cbn [shared threads].
  - rewrite (map_report_insert _ i t t' Hl Hrt). exact Hrep.
  - destruct (at_point t); try (destruct Hres as (_ & -> & _); exact Herr).
    destruct Hres as (_ & -> & _).
    apply (aggregated_not_error (report t) _ Herr Hnoerr).
  - rewrite (total_insert _ _ _ _ _ Hl).
    destruct (at_point t) eqn:Hat.
    + destruct Heff as (_ & _ & _ & Hat' & _). destruct Hres as (-> & _).
      rewrite (contribution_at t _ Hat), (contribution_at t' _ Hat'), Hrv.
      f_equal. lia.
    + destruct Heff as (_ & _ & ->). destruct Hres as (-> & _).
      rewrite (contribution_at t _ Hat),
        (contribution_at (goto AtAggregate t) AtAggregate eq_refl), Hrv.
      f_equal. lia.
    + destruct Heff as (_ & _ & ->). destruct Hres as (-> & _).
      rewrite (proj2 (aggregated_not_error (report t) _ Herr Hnoerr)).
      rewrite (contribution_at t _ Hat), Hrv.
      set (q := if Int.to_uint32 (previous_pending_count t - 1) =? 0
                then AtFinalize else AtPut).
      assert (Hq : contribution (goto q t) =
                   if report t >? 0 then report t else 0).
      { unfold q. destruct (_ =? 0); reflexivity. }
      rewrite Hq. destruct (report t >? 0).
      * rewrite to_ssize_add. f_equal. lia.
      * f_equal. lia.
    + destruct Heff as (_ & _ & ->). destruct Hres as (-> & _).
      rewrite (finalized_no_error _ Herr).
      rewrite (contribution_at t _ Hat),
        (contribution_at (goto AtComplete t) AtComplete eq_refl), Hrv.
      cbn [goto report]. f_equal. lia.
    + destruct Heff as (_ & _ & ->). destruct Hres as (-> & _).
      rewrite (contribution_at t _ Hat),
        (contribution_at (goto AtPut t) AtPut eq_refl), Hrv.
      cbn [goto report]. f_equal. lia.
    + destruct Heff as (_ & _ & ->). destruct Hres as (-> & _).
      rewrite (contribution_at t _ Hat),
        (contribution_at (goto Returned t) Returned eq_refl), Hrv.
      cbn [goto report]. f_equal. lia.
    + destruct Heff as (_ & _ & ->). destruct Hres as (-> & _).
      rewrite Hrv. f_equal. lia.
Qed.

Lemma total_contribution_returned (l : list thread) :
  Forall (fun t => has_returned t = true) l ->
  total contribution l = byte_count (map report l).
Proof.
  induction 1 as [|t l Ht _ IH]; [reflexivity|].
  cbn [total map byte_count]. rewrite IH. f_equal.
  unfold has_returned in Ht. unfold contribution.
  destruct (at_point t); try discriminate. reflexivity.
Qed.

Lemma total_contribution_call (rs : list Z) :
  total contribution (map call rs) = 0.
Proof. induction rs as [|r rs IH]; [reflexivity|]. cbn. exact IH. Qed.

(** X16: when no report is an error (each is positive, zero or -EEXIST),
    the result after all threads have returned does not depend on the
    schedule: it is the result at the start plus the sum of the positive
    reports, wrapped to ssize_t, and the first-error slot is still empty.
    (The callback may have seen less of it.) *)
Theorem concurrent_byte_count_any_schedule
    (now : Z) (schedule : list nat) (rs : list Z) (s : sys) (p : pool) :
  error_rval (comp s) = 0 ->
  Int.SSIZE_MIN <= rval (comp s) <= Int.SSIZE_MAX ->
  Forall (fun r => is_error r = false) rs ->
  run now schedule (spawn s rs) = Ok p ->
  Forall (fun t => has_returned t = true) (threads p) ->
  get_return_value (comp (shared p)) =
    Int.to_ssize (rval (comp s) + byte_count rs) /\
  error_rval (comp (shared p)) = 0.
Proof.
  intros He Hrange Hrs Hrun Hret.
  assert (Hgen : forall schedule p0 p1,
             results_invariant (rval (comp s)) rs p0 ->
             run now schedule p0 = Ok p1 ->
             results_invariant (rval (comp s)) rs p1).
  { clear - Hrs. intros schedule.
    induction schedule as [|i later IH]; intros p0 p1 Hinv Hrun; cbn in Hrun.
    - injection Hrun as <-. exact Hinv.
    - destruct (pool_step now i p0) as [p2|w] eqn:Hstep; [|discriminate].
      apply (IH p2 p1); [|exact Hrun].
      apply (pool_step_results_invariant _ now rs i p0 p2 Hrs Hinv Hstep). }
  destruct (Hgen schedule (spawn s rs) p) as [Hrep Herr Hrv]; [|exact Hrun|].
  { constructor; cbn [spawn shared threads].
    - apply map_report_call.
    - exact He.
    - rewrite total_contribution_call, Z.add_0_r.
      symmetry. apply IntFacts.to_ssize_id, Hrange. }
  split; [|exact Herr].
  unfold get_return_value. rewrite Hrv, (total_contribution_returned _ Hret), Hrep.
  reflexivity.
Qed.

Lemma concurrent_byte_count_any_schedule_witness :
  exists p,
    run 130 [0; 1; 1; 1; 1; 1; 1; 0; 0; 0]%nat
      (spawn {| comp := issued AIO_TYPE_WRITE 2; trace := [] |} [5; 3])
      = Ok p /\
    get_return_value (comp (shared p)) =
      Int.to_ssize
        (rval (comp {| comp := issued AIO_TYPE_WRITE 2; trace := [] |}) +
         byte_count [5; 3]) /\
    error_rval (comp (shared p)) = 0.
Proof.
  eexists. split; [vm_compute; reflexivity|].
  apply (concurrent_byte_count_any_schedule 130
           [0; 1; 1; 1; 1; 1; 1; 0; 0; 0]%nat [5; 3]
           {| comp := issued AIO_TYPE_WRITE 2; trace := [] |}).
  - reflexivity.
  - vm_compute. split; discriminate.
  - repeat constructor.
  - vm_compute. reflexivity.
  - repeat constructor.
Defined.

Lemma tally_zero_lookup {A} (f : A -> bool) (l : list A) (i : nat) (x : A) :
  tally f l = 0 -> l !! i = Some x -> f x = false.
Proof.
  intros H0 Hl. destruct (f x) eqn:Hf; [|reflexivity].
  pose proof (tally_lookup f l i x Hl Hf). lia.
Qed.

Lemma pool_step_complete_once_run
    (cb : bool) (before now : Z) (i : nat) (p p' : pool) :
  pool_invariant cb before p ->
  complete_once_run p ->
  pool_step now i p = Ok p' ->
  complete_once_run p'.
Proof.
  intros Hinv Hone Hstep.
  destruct (pool_step_inv now i p p' Hstep) as [->|(t & t' & s' & Hl & Hts & ->)];
    [exact Hone|].
  destruct (thread_step_results now t t' (shared p) s' Hts) as [_ Hres].
  destruct (thread_step_effect now t t' (shared p) s' Hts) as [_ Heff].
  pose proof (Forall_lookup_1 _ _ _ _ (inv_local _ _ _ Hinv) Hl) as Hrange.
  cbv beta in Hrange.
  unfold complete_once_run in *. cbn [shared threads].
  destruct (at_point t) eqn:Hat;
    try (destruct Hres as (_ & _ & Hst); rewrite Hst);
    try (right; reflexivity);
    (destruct Hone as [Hzero|Hdone]; [left|right; exact Hdone]);
    rewrite (tally_insert _ _ _ _ _ Hl), Hzero,
      (tally_zero_lookup _ _ _ _ Hzero Hl).
  - destruct Heff as (_ & _ & _ & Hat' & _).
    unfold ran_complete. rewrite Hat'. reflexivity.
  - destruct Heff as (_ & _ & ->). reflexivity.
  - destruct Heff as (_ & _ & ->).
    assert (Hr : 0 < previous_pending_count t < 2 ^ 32)
      by (apply Hrange; unfold at_decrement; rewrite Hat; reflexivity).
    rewrite IntFacts.to_uint32_id by lia.
    unfold ran_complete.
    destruct (Z.eqb_spec (previous_pending_count t - 1) 0);
      cbn [goto at_point previous_pending_count]; [reflexivity|].
    destruct (Z.eqb_spec (previous_pending_count t) 1); [lia|reflexivity].
  - destruct Heff as (_ & _ & ->). reflexivity.
  - destruct Heff as (_ & _ & ->).
    pose proof (tally_zero_lookup _ _ _ _ Hzero Hl) as Hrc.
    unfold ran_complete in Hrc |- *. rewrite Hat in Hrc.
    cbn [goto at_point previous_pending_count]. rewrite Hrc. reflexivity.
  - destruct Heff as (_ & _ & ->).
    rewrite (tally_zero_lookup _ _ _ _ Hzero Hl). reflexivity.
Qed.

(** X17: under every schedule, once all the threads that report the
    declared number of results have returned, the request is settled: the
    count is zero, the state is Complete, [is_complete] is true and a
    waiter returns. *)
Theorem concurrent_reports_complete_the_request
    (now : Z) (schedule : list nat) (rs : list Z) (s : sys) (p : pool) :
  rs <> [] ->
  Z.of_nat (length rs) < 2 ^ 32 ->
  pending_count (comp s) = Z.of_nat (length rs) ->
  run now schedule (spawn s rs) = Ok p ->
  Forall (fun t => has_returned t = true) (threads p) ->
  pending_count (comp (shared p)) = 0 /\
  state (comp (shared p)) = AIO_STATE_COMPLETE /\
  is_complete (comp (shared p)) = true /\
  wait_for_complete [comp (shared p)] = Some 0.
Proof.
  intros Hne Hlt Hp Hrun Hret.
  pose proof (spawn_invariant s rs Hne Hlt Hp) as Hinv0.
  assert (Hgen : forall schedule p0 p1,
             pool_invariant (complete_cb (comp s))
               (Z.of_nat (length (callbacks (trace s)))) p0 ->
             complete_once_run p0 ->
             run now schedule p0 = Ok p1 ->
             pool_invariant (complete_cb (comp s))
               (Z.of_nat (length (callbacks (trace s)))) p1 /\
             complete_once_run p1).
  { clear. intros schedule.
    induction schedule as [|i later IH]; intros p0 p1 Hinv Hone Hrun;
      cbn in Hrun.
    - injection Hrun as <-. auto.
    - destruct (pool_step now i p0) as [p2|w] eqn:Hstep; [|discriminate].
      apply (IH p2 p1); [| |exact Hrun].
      + apply (pool_step_invariant _ _ now i p0 p2 Hinv Hstep).
      + apply (pool_step_complete_once_run _ _ now i p0 p2 Hinv Hone Hstep). }
  destruct (Hgen schedule (spawn s rs) p Hinv0) as [Hinv Hone];
    [|exact Hrun|].
  { left. cbn [spawn threads]. apply tally_none, Forall_map, Forall_forall.
    intros r _. reflexivity. }
  destruct Hinv as [_ Hpend Hzero _ _ _ _].
  assert (H0 : tally at_decrement (threads p) = 0).
  { apply tally_none. eapply Forall_impl; [exact Hret|].
    intros t. unfold has_returned, at_decrement.
    destruct (at_point t); congruence. }
  assert (Heq : tally ran_complete (threads p) = tally saw_zero (threads p)).
  { apply tally_eq. eapply Forall_impl; [exact Hret|].
    intros t. unfold has_returned, ran_complete, saw_zero.
    destruct (at_point t); congruence. }
  rewrite Hpend, H0 in Hzero. cbn in Hzero.
  assert (Hstate : state (comp (shared p)) = AIO_STATE_COMPLETE).
  { destruct Hone as [Hnone|Hdone]; [lia|exact Hdone]. }
  split; [rewrite Hpend; exact H0|]. split; [exact Hstate|].
  unfold is_complete. cbn [wait_for_complete]. rewrite Hstate. auto.
Qed.

Lemma concurrent_reports_complete_the_request_witness :
  exists p,
    run 130 [0; 1; 1; 1; 1; 1; 1; 0; 0; 0]%nat
      (spawn {| comp := issued AIO_TYPE_WRITE 2; trace := [] |} [- EIO; 3])
      = Ok p /\
    pending_count (comp (shared p)) = 0 /\
    state (comp (shared p)) = AIO_STATE_COMPLETE /\
    is_complete (comp (shared p)) = true /\
    wait_for_complete [comp (shared p)] = Some 0.
Proof.
  eexists. split; [vm_compute; reflexivity|].
  apply (concurrent_reports_complete_the_request 130
           [0; 1; 1; 1; 1; 1; 1; 0; 0; 0]%nat [- EIO; 3]
           {| comp := issued AIO_TYPE_WRITE 2; trace := [] |}).
  - discriminate.
  - reflexivity.
  - reflexivity.
  - vm_compute. reflexivity.
  - repeat constructor.
Defined.

(** ** What the callback sees *)

(** X18: when the declared reports arrive one after the other, the
    callback, if registered, is invoked once, by the last report, and what
    it sees is final: the state Callback, a count of zero, and the result
    and first-error slot that the completion keeps afterwards. *)
Theorem callback_sees_final_result
    (now : Z) (rs : list Z) (c : AioCompletion) (tr : list event) (i : ImageCtx) :
  ictx c = Some i ->
  complete_cb c = true ->
  rs <> [] ->
  pending_count c = Z.of_nat (length rs) ->
  Z.of_nat (length rs) < 2 ^ 32 ->
  exists s' seen,
    deliver rs now {| comp := c; trace := tr |} = Ok (tt, s') /\
    callbacks (trace s') = callbacks tr ++ [seen] /\
    state seen = AIO_STATE_CALLBACK /\
    pending_count seen = 0 /\
    get_return_value seen = get_return_value (comp s') /\
    error_rval seen = error_rval (comp s').
Proof.
  intros Hi Hcb Hne Hp Hlt.
  set (c' := finalized (reported_all rs c)).
  destruct (same_request_trans _ _ _ (finalized_same_request _)
              (reported_all_same_request rs c))
    as (_ & _ & _ & _ & Hcb' & _).
  fold c' in Hcb'.
  eexists. exists (in_callback c').
  split; [apply (deliver_all now rs c tr i Hi Hne Hp Hlt)|].
  cbn [comp trace]. fold c'.
  split.
  { rewrite !callbacks_app, callbacks_repeat_put, callbacks_finalize_events,
      callbacks_complete_events, Hcb', Hcb. reflexivity. }
  assert (Hpc : pending_count c' = 0).
  { unfold c'. rewrite (proj1 (proj2 (finalized_fields _))).
    rewrite reported_all_pending_count; lia. }
  unfold get_return_value, completed, in_callback.
  destruct (tears_down c'); cbn; auto.
Qed.

Lemma callback_sees_final_result_witness :
  exists s' seen,
    deliver [5; 3; - EIO; 2] 130
      {| comp := issued AIO_TYPE_WRITE 4; trace := [] |} = Ok (tt, s') /\
    callbacks (trace s') = callbacks [] ++ [seen] /\
    state seen = AIO_STATE_CALLBACK /\
    pending_count seen = 0 /\
    get_return_value seen = get_return_value (comp s') /\
    error_rval seen = error_rval (comp s').
Proof.
  apply (callback_sees_final_result 130 [5; 3; - EIO; 2]
           (issued AIO_TYPE_WRITE 4) [] an_image); try reflexivity.
  discriminate.
Defined.
